(** * Apple SPI keyboard driver (drivers/input/apple_spi_kbd.c)

    A shallow embedding of the packet check, the report differ and the
    translation tables of the driver, and the properties of its
    specification that hold (or fail) on them.

    Bytes and C integers are [Z]; the byte arrays of the structs are
    [list Z]; the driver's private data and the stream of key events it
    hands to the input layer are threaded through a small state monad.

    The file also embeds the UTF-8 to code page 437 conversion
    (drivers/video/utf8_cp437.c) and the memory map and late initialisation
    of the board (arch/arm/mach-apple/board.c). *)

From Stdlib Require Import String.
From Stdlib Require Import ZArith List Bool Lia Permutation Ascii.
Import ListNotations.
Local Open Scope Z_scope.

(* ================================================================== *)
(** * Constants of the driver *)

Definition BIT (n : Z) : Z := Z.shiftl 1 n.

(** Modifier key bits *)
Definition HID_MOD_LEFTCTRL : Z := BIT 0.
Definition HID_MOD_LEFTSHIFT : Z := BIT 1.
Definition HID_MOD_RIGHTCTRL : Z := BIT 4.
Definition HID_MOD_RIGHTSHIFT : Z := BIT 5.

(** Modifier key codes *)
Definition HID_KEY_LEFTCTRL : Z := 0xe0.
Definition HID_KEY_LEFTSHIFT : Z := 0xe1.
Definition HID_KEY_RIGHTCTRL : Z := 0xe4.
Definition HID_KEY_RIGHTSHIFT : Z := 0xe5.

(** Report ID used for keyboard input reports. *)
Definition KBD_REPORTID : Z := 0x01.
(** Keyboard device. *)
Definition KBD_DEVICE : Z := 0x01.
Definition PACKET_READ : Z := 0x20.
Definition MSG_REPORT : Z := 0x10.

(** A C character constant as its code. *)
Definition ch (c : ascii) : Z := Z.of_N (N_of_ascii c).

Definition hid_kbd_plain_xlate : list Z :=
  [ 0xff; 0xff; 0xff; 0xff; ch "a"; ch "b"; ch "c"; ch "d";
    ch "e"; ch "f"; ch "g"; ch "h"; ch "i"; ch "j"; ch "k"; ch "l";
    ch "m"; ch "n"; ch "o"; ch "p"; ch "q"; ch "r"; ch "s"; ch "t";
    ch "u"; ch "v"; ch "w"; ch "x"; ch "y"; ch "z"; ch "1"; ch "2";
    ch "3"; ch "4"; ch "5"; ch "6"; ch "7"; ch "8"; ch "9"; ch "0";
    0x0d; 0x1b; 0x08; 0x09; ch " "; ch "-"; ch "="; ch "[";
    ch "]"; 0x5c; ch "#"; ch ";"; 0x27; ch "`"; ch ","; ch ".";
    ch "/" ].

Definition hid_kbd_shift_xlate : list Z :=
  [ 0xff; 0xff; 0xff; 0xff; ch "A"; ch "B"; ch "C"; ch "D";
    ch "E"; ch "F"; ch "G"; ch "H"; ch "I"; ch "J"; ch "K"; ch "L";
    ch "M"; ch "N"; ch "O"; ch "P"; ch "Q"; ch "R"; ch "S"; ch "T";
    ch "U"; ch "V"; ch "W"; ch "X"; ch "Y"; ch "Z"; ch "!"; ch "@";
    ch "#"; ch "$"; ch "%"; ch "^"; ch "&"; ch "*"; ch "("; ch ")";
    0x0d; 0x1b; 0x08; 0x09; ch " "; ch "_"; ch "+"; ch "{";
    ch "}"; ch "|"; ch "~"; ch ":"; 0x22; ch "~"; ch "<"; ch ">";
    ch "?" ].

Definition hid_kbd_ctrl_xlate : list Z :=
  [ 0xff; 0xff; 0xff; 0xff; 0x01; 0x02; 0x03; 0x04;
    0x05; 0x06; 0x07; 0x08; 0x09; 0x0a; 0x0b; 0x0c;
    0x0d; 0x0e; 0x0f; 0x10; 0x11; 0x12; 0x13; 0x14;
    0x15; 0x16; 0x17; 0x18; 0x19; 0x1a; ch "1"; 0x00;
    ch "3"; ch "4"; ch "5"; 0x1e; ch "7"; ch "8"; ch "9"; ch "0";
    0x0d; 0x1b; 0x08; 0x09; ch " "; 0x1f; ch "="; 0x1b;
    0x1d; 0x1c; ch "#"; ch ";"; 0x27; ch "`"; ch ","; ch ".";
    ch "/" ].

(** [ARRAY_SIZE] of the three tables. *)
Definition ARRAY_SIZE (t : list Z) : Z := Z.of_nat (length t).

(* ================================================================== *)
(** * Data model *)

(** [struct apple_spi_kbd_report]: ten bytes. *)
Record apple_spi_kbd_report := mk_report {
  reportid : Z;
  modifiers : Z;
  reserved : Z;
  keycode : list Z;      (* u8 keycode[6] *)
  fn : Z
}.

Definition sizeof_keycode : nat := 6.
Definition sizeof_report : Z := 10.

(** A report as the C type has it: the keycode array holds six slots. *)
Definition report_wf (r : apple_spi_kbd_report) : Prop :=
  length (keycode r) = sizeof_keycode.

(** [struct apple_spi_kbd_priv] without the GPIO descriptor, which the
    packet check never touches. *)
Record apple_spi_kbd_priv := mk_priv {
  old : apple_spi_kbd_report;
  new : apple_spi_kbd_report
}.

(** A key transition handed to the input layer. *)
Record KeyEvent := mk_event {
  ev_keycode : Z;
  ev_pressed : bool
}.

(** The state a poll touches: the driver's private data and the events
    delivered so far through [input]. *)
Record input_config := mk_input {
  dev_priv : apple_spi_kbd_priv;
  delivered : list KeyEvent
}.

(* ------------------------------------------------------------------ *)
(** ** Wire format: the 256-byte packet as a byte list *)

Definition byte_at (buf : list Z) (off : nat) : Z := nth off buf 0.

(** A little-endian [u16] field. *)
Definition u16_at (buf : list Z) (off : nat) : Z :=
  Z.lor (byte_at buf off) (Z.shiftl (byte_at buf (S off)) 8).

(** [struct apple_spi_kbd_packet]: flags, device, offset, remaining, len,
    data[246], crc. *)
Definition packet_flags (p : list Z) : Z := byte_at p 0.
Definition packet_device (p : list Z) : Z := byte_at p 1.
Definition packet_data : nat := 8.

(** [struct apple_spi_kbd_msg] laid over [packet.data]. *)
Definition msg_type (p : list Z) : Z := byte_at p packet_data.
Definition msg_device (p : list Z) : Z := byte_at p (packet_data + 1).
Definition msg_cmdlen (p : list Z) : Z := u16_at p (packet_data + 6).
Definition msg_data : nat := packet_data + 8.

(** [struct apple_spi_kbd_report] laid over [msg->data]; reading it out is
    what [memcpy(&priv->new, report, sizeof(...))] stores. *)
Definition report_of (p : list Z) : apple_spi_kbd_report :=
  {| reportid := byte_at p msg_data;
     modifiers := byte_at p (msg_data + 1);
     reserved := byte_at p (msg_data + 2);
     keycode := map (fun i => byte_at p (msg_data + 3 + i)) (seq 0 sizeof_keycode);
     fn := byte_at p (msg_data + 9) |}.

(* ================================================================== *)
(** * The state monad of a poll *)

Definition M (A : Type) : Type := input_config -> A * input_config.

Definition ret {A} (a : A) : M A := fun s => (a, s).
Definition bind {A B} (m : M A) (k : A -> M B) : M B :=
  fun s => let (a, s') := m s in k a s'.

Notation "x <- m ;; k" := (bind m (fun x => k))
  (at level 61, m at next level, right associativity).
Notation "m ;; k" := (bind m (fun _ => k))
  (at level 61, right associativity).

Definition dev_get_priv : M apple_spi_kbd_priv := fun s => (dev_priv s, s).
Definition set_priv (p : apple_spi_kbd_priv) : M unit :=
  fun s => (tt, {| dev_priv := p; delivered := delivered s |}).

Definition when (b : bool) (m : M unit) : M unit := if b then m else ret tt.

(** [for (i = lo; i < lo + n; i++) body(i)] *)
Fixpoint for_loop (lo : nat) (n : nat) (body : nat -> M unit) : M unit :=
  match n with
  | O => ret tt
  | S n' => body lo ;; for_loop (S lo) n' body
  end.

(** C truth of an integer. *)
Definition truthy (z : Z) : bool := negb (z =? 0).

(* ------------------------------------------------------------------ *)
(** ** Helpers of the repository that live outside the driver *)

(** Modelled from the spec: [memscan] (lib/string.c) is not among the
    sources.  The spec reads the driver's test as "the value does not
    appear anywhere in the array": the scan walks [size] bytes from the
    start of the area and stops at the first byte equal to [c]; the
    result is the offset of that byte from the start, or [size] (one past
    the area) when there is none. *)
Fixpoint memscan_from (addr : list Z) (c : Z) (p : nat) (size : nat) : nat :=
  match size with
  | O => p
  | S size' =>
      if byte_at addr p =? c then p else memscan_from addr c (S p) size'
  end.

Definition memscan (addr : list Z) (c : Z) (size : nat) : nat :=
  memscan_from addr c 0 size.

(** Modelled from the spec: [input_add_keycode] (the input layer) is not
    among the sources.  Per the spec's KeyEvent it delivers the pair
    (keycode, pressed) to the consumer, where the key is pressed exactly
    when the [release] argument is false. *)
Definition input_add_keycode (new_keycode : Z) (release : Z) : M unit :=
  fun s => (tt, {| dev_priv := dev_priv s;
                   delivered := delivered s ++
                     [mk_event new_keycode (negb (truthy release))] |}).

(* ================================================================== *)
(** * The driver *)

Definition apple_spi_kbd_service_modifiers : M unit :=
  priv <- dev_get_priv ;;
  let new := modifiers (new priv) in
  let old := modifiers (old priv) in
  when (truthy (Z.land (Z.lxor new old) HID_MOD_LEFTCTRL))
    (input_add_keycode HID_KEY_LEFTCTRL (Z.land old HID_MOD_LEFTCTRL)) ;;
  when (truthy (Z.land (Z.lxor new old) HID_MOD_RIGHTCTRL))
    (input_add_keycode HID_KEY_RIGHTCTRL (Z.land old HID_MOD_RIGHTCTRL)) ;;
  when (truthy (Z.land (Z.lxor new old) HID_MOD_LEFTSHIFT))
    (input_add_keycode HID_KEY_LEFTSHIFT (Z.land old HID_MOD_LEFTSHIFT)) ;;
  when (truthy (Z.land (Z.lxor new old) HID_MOD_RIGHTSHIFT))
    (input_add_keycode HID_KEY_RIGHTSHIFT (Z.land old HID_MOD_RIGHTSHIFT)).

Definition apple_spi_kbd_service_key (i : nat) (released : Z) : M unit :=
  priv <- dev_get_priv ;;
  let '(new, old) :=
    if truthy released
    then (keycode (new priv), keycode (old priv))
    else (keycode (old priv), keycode (new priv)) in
  when (Nat.eqb (memscan new (byte_at old i) sizeof_keycode) sizeof_keycode)
    (input_add_keycode (byte_at old i) released).

(** The test of the received packet in [apple_spi_kbd_check]. *)
Definition packet_ok (packet : list Z) : bool :=
  (packet_flags packet =? PACKET_READ) && (packet_device packet =? KBD_DEVICE) &&
  (msg_type packet =? MSG_REPORT) && (msg_device packet =? KBD_DEVICE) &&
  (msg_cmdlen packet =? sizeof_report) &&
  (reportid (report_of packet) =? KBD_REPORTID).

(** [apple_spi_kbd_check]: [claim] is what [dm_spi_claim_bus] returned and
    [packet] the 256 bytes the transfer left in the buffer. *)
Definition apple_spi_kbd_check (claim : Z) (packet : list Z) : M Z :=
  if claim <? 0 then ret claim
  else if packet_ok packet then
    priv <- dev_get_priv ;;
    set_priv {| old := old priv; new := report_of packet |} ;;
    apple_spi_kbd_service_modifiers ;;
    for_loop 0 sizeof_keycode (fun i =>
      apple_spi_kbd_service_key i 1 ;;
      apple_spi_kbd_service_key i 0) ;;
    priv <- dev_get_priv ;;
    set_priv {| old := new priv; new := new priv |} ;;
    ret 1
  else ret 0.

(** The differ on its own: what [apple_spi_kbd_check] runs between the two
    [memcpy] calls. *)
Definition service_all : M unit :=
  apple_spi_kbd_service_modifiers ;;
  for_loop 0 sizeof_keycode (fun i =>
    apple_spi_kbd_service_key i 1 ;;
    apple_spi_kbd_service_key i 0).

(** The events a routine delivers when the stored reports are [previous]
    and [current]. *)
Definition events_of (m : M unit) (previous current : apple_spi_kbd_report) : list KeyEvent :=
  delivered (snd (m {| dev_priv := {| old := previous; new := current |};
                       delivered := [] |})).

Definition diff : apple_spi_kbd_report -> apple_spi_kbd_report -> list KeyEvent :=
  events_of service_all.

Definition modifier_events : apple_spi_kbd_report -> apple_spi_kbd_report -> list KeyEvent :=
  events_of apple_spi_kbd_service_modifiers.

Definition key_slot_events : apple_spi_kbd_report -> apple_spi_kbd_report -> list KeyEvent :=
  events_of (for_loop 0 sizeof_keycode (fun i =>
    apple_spi_kbd_service_key i 1 ;;
    apple_spi_kbd_service_key i 0)).

(** The release check and the press check of slot [i]. *)
Definition slot_release_events (previous current : apple_spi_kbd_report) (i : nat) : list KeyEvent :=
  events_of (apple_spi_kbd_service_key i 1) previous current.

Definition slot_press_events (previous current : apple_spi_kbd_report) (i : nat) : list KeyEvent :=
  events_of (apple_spi_kbd_service_key i 0) previous current.

(* ================================================================== *)
(** * The differ as the specification words it *)

(** The tracked modifier bits with their key codes, in the order the
    driver examines them: left-ctrl, right-ctrl, left-shift, right-shift. *)
Definition tracked_modifiers : list (Z * Z) :=
  [ (0, HID_KEY_LEFTCTRL); (4, HID_KEY_RIGHTCTRL);
    (1, HID_KEY_LEFTSHIFT); (5, HID_KEY_RIGHTSHIFT) ].

(** One event when the bit differs, carrying the bit's new value. *)
Definition modifier_transition (o n : Z) (m : Z * Z) : list KeyEvent :=
  if Bool.eqb (Z.testbit o (fst m)) (Z.testbit n (fst m)) then []
  else [mk_event (snd m) (Z.testbit n (fst m))].

(** Membership by value in a keycode array. *)
Definition appears (c : Z) (arr : list Z) : bool := existsb (Z.eqb c) arr.

(** Release of previous.keycode[i] when the value appears nowhere in the
    current array; press of current.keycode[i] when the value appears
    nowhere in the previous array. *)
Definition slot_release (previous current : apple_spi_kbd_report) (i : nat) : list KeyEvent :=
  if appears (byte_at (keycode previous) i) (keycode current) then []
  else [mk_event (byte_at (keycode previous) i) false].

Definition slot_press (previous current : apple_spi_kbd_report) (i : nat) : list KeyEvent :=
  if appears (byte_at (keycode current) i) (keycode previous) then []
  else [mk_event (byte_at (keycode current) i) true].

Definition is_release (e : KeyEvent) : bool := negb (ev_pressed e).
Definition is_press (e : KeyEvent) : bool := ev_pressed e.
Definition invert (e : KeyEvent) : KeyEvent :=
  mk_event (ev_keycode e) (negb (ev_pressed e)).

(* ------------------------------------------------------------------ *)
(** ** What the routines deliver, as lists *)

(** [emits m f]: [m] leaves the private data alone and appends [f priv] to
    the delivered events. *)
Definition emits (m : M unit) (f : apple_spi_kbd_priv -> list KeyEvent) : Prop :=
  forall s, m s =
    (tt, {| dev_priv := dev_priv s; delivered := delivered s ++ f (dev_priv s) |}).

(** The driver's test [memscan(new, c, 6) == new + 6]. *)
Definition scan_misses (arr : list Z) (c : Z) : bool :=
  Nat.eqb (memscan arr c sizeof_keycode) sizeof_keycode.

Definition release_check (p : apple_spi_kbd_priv) (i : nat) : list KeyEvent :=
  if scan_misses (keycode (new p)) (byte_at (keycode (old p)) i)
  then [mk_event (byte_at (keycode (old p)) i) false] else [].

Definition press_check (p : apple_spi_kbd_priv) (i : nat) : list KeyEvent :=
  if scan_misses (keycode (old p)) (byte_at (keycode (new p)) i)
  then [mk_event (byte_at (keycode (new p)) i) true] else [].

Definition modifier_check (p : apple_spi_kbd_priv) : list KeyEvent :=
  flat_map (modifier_transition (modifiers (old p)) (modifiers (new p))) tracked_modifiers.

(* ================================================================== *)
(** * The translator *)

(** A registered table: [input_add_table(input, left, right, xlate, n)]. *)
Record input_key_xlate := mk_xlate {
  left_keycode : Z;
  right_keycode : Z;
  xlate : list Z;
  num_entries : Z
}.

Definition input_add_table (tables : list input_key_xlate)
    (left right : Z) (t : list Z) (n : Z) : list input_key_xlate :=
  tables ++ [mk_xlate left right t n].

(** The three registrations of [apple_spi_kbd_probe], in its order. *)
Definition apple_spi_kbd_probe_tables : list input_key_xlate :=
  let input := [] in
  let input := input_add_table input (-1) (-1)
                 hid_kbd_plain_xlate (ARRAY_SIZE hid_kbd_plain_xlate) in
  let input := input_add_table input HID_KEY_LEFTSHIFT HID_KEY_RIGHTSHIFT
                 hid_kbd_shift_xlate (ARRAY_SIZE hid_kbd_shift_xlate) in
  input_add_table input HID_KEY_LEFTCTRL HID_KEY_RIGHTCTRL
                 hid_kbd_ctrl_xlate (ARRAY_SIZE hid_kbd_ctrl_xlate).

(** The table registered for the pair of modifier key codes [left],
    [right]. *)
Definition registered_table (left right : Z) : list Z :=
  match find (fun t => (left_keycode t =? left) && (right_keycode t =? right))
             apple_spi_kbd_probe_tables with
  | Some t => xlate t
  | None => []
  end.

(** Modelled from the spec: the keycode-to-character conversion of the
    input layer, which consumes the tables that [apple_spi_kbd_probe]
    registers, is not among the sources.  From the spec: the table is
    chosen by priority (the ctrl table when a ctrl modifier bit is set, else
    the shift table when a shift modifier bit is set, else the plain
    table), and a keycode outside the table or an entry 0xFF yields
    nothing.  The spec words the index as keycode - 4 and requires
    translate(4) to be 'a', 'A' and 0x01.  The driver's arrays hold their
    entry for keycode 4 ('a', HID usage 0x04) at index 4, after four 0xFF
    entries for keycodes 0..3, so [translate] indexes the array by the
    keycode itself; this is the entry at index keycode - 4 of the spec's
    table, the array without those four entries ([translation_table]).
    The index base is a parameter of [translate_from]. *)
Definition ctrl_held (m : Z) : bool :=
  truthy (Z.land m (Z.lor HID_MOD_LEFTCTRL HID_MOD_RIGHTCTRL)).

Definition shift_held (m : Z) : bool :=
  truthy (Z.land m (Z.lor HID_MOD_LEFTSHIFT HID_MOD_RIGHTSHIFT)).

Definition select_table (m : Z) : list Z :=
  if ctrl_held m then registered_table HID_KEY_LEFTCTRL HID_KEY_RIGHTCTRL
  else if shift_held m then registered_table HID_KEY_LEFTSHIFT HID_KEY_RIGHTSHIFT
  else registered_table (-1) (-1).

Definition xlate_entry (table : list Z) (idx : Z) : option Z :=
  if (0 <=? idx) && (idx <? ARRAY_SIZE table) then
    let c := nth (Z.to_nat idx) table 0xff in
    if c =? 0xff then None else Some c
  else None.

Definition translate_from (base : Z) (key m : Z) : option Z :=
  xlate_entry (select_table m) (key - base).

Definition translate : Z -> Z -> option Z := translate_from 0.


(* ================================================================== *)
(** * Sample data *)

(** A report with the keyboard report id, modifier byte [m] and keycode
    slots [ks]. *)
Definition rep (m : Z) (ks : list Z) : apple_spi_kbd_report :=
  {| reportid := KBD_REPORTID; modifiers := m; reserved := 0; keycode := ks; fn := 0 |}.

(** A packet the driver accepts: left-shift held, key 4 in the first slot. *)
Definition sample_packet : list Z :=
  [ 0x20; 0x01; 0; 0; 0; 0; 0; 0;
    0x10; 0x01; 0; 0; 0; 0; 10; 0;
    0x01; 0x02; 0; 4; 0; 0; 0; 0; 0; 0 ] ++ repeat 0 230.

(** The private data as [priv_auto] allocates it (zeroed), nothing
    delivered yet. *)
Definition zero_report : apple_spi_kbd_report :=
  {| reportid := 0; modifiers := 0; reserved := 0; keycode := repeat 0 sizeof_keycode; fn := 0 |}.
Definition initial_config : input_config :=
  {| dev_priv := {| old := zero_report; new := zero_report |}; delivered := [] |}.

(* ================================================================== *)
(** * Following the keyboard through its events *)

(** What a consumer of the events keeps: the list of keys held, a press
    adding the key and a release removing it. *)
Definition apply_event (held : list Z) (e : KeyEvent) : list Z :=
  if ev_pressed e then ev_keycode e :: held
  else remove Z.eq_dec (ev_keycode e) held.

Definition replay (events : list KeyEvent) (held : list Z) : list Z :=
  fold_left apply_event events held.

(** The key codes of the tracked modifiers whose bit is set in a modifier
    byte. *)
Definition held_modifiers (m : Z) : list Z :=
  flat_map (fun bk : Z * Z => if Z.testbit m (fst bk) then [snd bk] else [])
           tracked_modifiers.

(** A run of polls: each input is what [dm_spi_claim_bus] returned and the
    packet the transfer read. *)
Fixpoint poll_all (inputs : list (Z * list Z)) (s : input_config) : input_config :=
  match inputs with
  | [] => s
  | (claim, packet) :: rest =>
      poll_all rest (snd (apple_spi_kbd_check claim packet s))
  end.

(* ================================================================== *)
(** * UTF-8 to code page 437 (drivers/video/utf8_cp437.c) *)

(** Conversions to [uint8_t] and [uint16_t]. *)
Definition u8 (z : Z) : Z := z mod 256.
Definition u16 (z : Z) : Z := z mod 65536.

Definition code_points_00a0 : list Z :=
  [ 255; 173; 155; 156;   7; 157;   7;  21;
      7;   7; 166; 174; 170;   7;   7;   7;
    248; 241; 253;   7;   7; 230;  20; 250;
      7;   7; 167; 175; 172; 171;   7; 168;
      7;   7;   7;   7; 142; 143; 146; 128;
      7; 144;   7;   7;   7;   7;   7;   7;
      7; 165;   7;   7;   7;   7; 153;   7;
      7;   7;   7;   7; 154;   7;   7; 225;
    133; 160; 131;   7; 132; 134; 145; 135;
    138; 130; 136; 137; 141; 161; 140; 139;
      7; 164; 149; 162; 147;   7; 148; 246;
      7; 151; 163; 150; 129;   7;   7; 152 ].

Definition code_points_2550 : list Z :=
  [ 205; 186; 213; 214; 201; 184; 183; 187;
    212; 211; 200; 190; 189; 188; 198; 199;
    204; 181; 182; 185; 209; 210; 203; 207;
    208; 202; 216; 215; 206 ].

Definition utf8_convert_11bit (code : Z) : Z :=
  match code with
  | 0x0192 => 159
  | 0x0393 => 226
  | 0x0398 => 233
  | 0x03A3 => 228
  | 0x03A6 => 232
  | 0x03A9 => 234
  | 0x03B1 => 224
  | 0x03B4 => 235
  | 0x03B5 => 238
  | 0x03C0 => 227
  | 0x03C3 => 229
  | 0x03C4 => 231
  | 0x03C6 => 237
  | _ => 0
  end.

Definition utf8_convert_2xxx (code : Z) : Z :=
  match code with
  | 0x2022 => 7
  | 0x203C => 19
  | 0x207F => 252
  | 0x20A7 => 158
  | 0x2190 => 27
  | 0x2191 => 24
  | 0x2192 => 26
  | 0x2193 => 25
  | 0x2194 => 29
  | 0x2195 => 18
  | 0x21A8 => 23
  | 0x2219 => 249
  | 0x221A => 251
  | 0x221E => 236
  | 0x221F => 28
  | 0x2229 => 239
  | 0x2248 => 247
  | 0x2261 => 240
  | 0x2264 => 243
  | 0x2265 => 242
  | 0x2310 => 169
  | 0x2320 => 244
  | 0x2321 => 245
  | 0x2500 => 196
  | 0x2502 => 179
  | 0x250C => 218
  | 0x2510 => 191
  | 0x2514 => 192
  | 0x2518 => 217
  | 0x251C => 195
  | 0x2524 => 180
  | 0x252C => 194
  | 0x2534 => 193
  | 0x253C => 197
  | 0x2580 => 223
  | 0x2584 => 220
  | 0x2588 => 219
  | 0x258C => 221
  | 0x2590 => 222
  | 0x2591 => 176
  | 0x2592 => 177
  | 0x2593 => 178
  | 0x25A0 => 254
  | 0x25AC => 22
  | 0x25B2 => 30
  | 0x25BA => 16
  | 0x25BC => 31
  | 0x25C4 => 17
  | 0x25CB => 9
  | 0x25D8 => 8
  | 0x25D9 => 10
  | 0x263A => 1
  | 0x263B => 2
  | 0x263C => 15
  | 0x2640 => 12
  | 0x2642 => 11
  | 0x2660 => 6
  | 0x2663 => 5
  | 0x2665 => 3
  | 0x2666 => 4
  | 0x266A => 13
  | 0x266B => 14
  | _ => 0
  end.

(** An array read; [None] outside the array, where C leaves the read
    undefined. *)
Definition array_at (t : list Z) (i : Z) : option Z :=
  if i <? 0 then None else nth_error t (Z.to_nat i).

(** [convert_uc16_to_cp437]: [None] only if a table were read out of
    bounds. *)
Definition convert_uc16_to_cp437 (code : Z) : option Z :=
  if code <? 0x7f then Some (u8 code)
  else if code <? 0xa0 then Some (u8 code)
  else if code <? 0x100 then array_at code_points_00a0 (code - 0xa0)
  else if code <? 0x800 then Some (utf8_convert_11bit code)
  else if (0x2550 <=? code) && (code <? 0x256d)
  then array_at code_points_2550 (code - 0x2550)
  else Some (utf8_convert_2xxx code).

(** Whether [shift << 24] and [(c & 0x3f) << (shift * 6)] are defined on a
    32-bit [int]: neither operand negative, the count below the width and
    the result representable. *)
Definition shifts_defined (shift c : Z) : bool :=
  (1 <=? shift) && (shift <=? 127) && (shift * 6 <? 32) &&
  (Z.shiftl (Z.land c 0x3f) (shift * 6) <? 2 ^ 31).

(** [convert_utf8_to_cp437(c, esc)]: the returned character and the new
    value of [*esc]; [None] where C leaves the shifts of the continuation
    case undefined.  [shift] is the [int] that [( *esc >> 24) - 1] converts
    to, so -1 when nothing is pending. *)
Definition convert_utf8_to_cp437 (c esc : Z) : option (Z * Z) :=
  if c <? 127 then Some (c, esc)
  else if c =? 127 then Some (8, esc)
  else
    match Z.land c 0xf0 with
    | 0xc0 | 0xd0 =>
        Some (0, Z.lor (Z.shiftl 1 24) (Z.shiftl (Z.land c 0x1f) 6))
    | 0xe0 =>
        Some (0, Z.lor (Z.shiftl 2 24) (Z.shiftl (Z.land c 0x0f) 12))
    | 0xf0 =>
        Some (0, Z.lor (Z.shiftl 3 24) (Z.shiftl (Z.land c 0x07) 18))
    | 0x80 | 0x90 | 0xa0 | 0xb0 =>
        let shift := Z.shiftr esc 24 - 1 in
        let ucs := u16 (Z.land esc 0xffffff) in
        if shift =? 0 then
          match convert_uc16_to_cp437 (u16 (Z.lor ucs (Z.land c 0x3f))) with
          | Some r => Some (r, 0)
          | None => None
          end
        else if shifts_defined shift c then
          Some (0, Z.lor (Z.lor (Z.shiftl shift 24) ucs)
                         (Z.shiftl (Z.land c 0x3f) (shift * 6)))
        else None
    | _ => Some (0, esc)
    end.

(** The number of continuation bytes a state still expects. *)
Definition pending (esc : Z) : Z := Z.shiftr esc 24.

(** Calling the decoder on each byte of a string in turn, as a console
    does: the characters returned and the final state. *)
Fixpoint feed (bytes : list Z) (esc : Z) : option (list Z * Z) :=
  match bytes with
  | [] => Some ([], esc)
  | c :: rest =>
      match convert_utf8_to_cp437 c esc with
      | None => None
      | Some (r, esc') =>
          match feed rest esc' with
          | None => None
          | Some (out, esc'') => Some (r :: out, esc'')
          end
      end
  end.

(** The UTF-8 encoding of a code point. *)
Definition utf8_encode (cp : Z) : list Z :=
  if cp <? 0x80 then [cp]
  else if cp <? 0x800 then [0xc0 + cp / 64; 0x80 + cp mod 64]
  else if cp <? 0x10000 then
    [0xe0 + cp / 4096; 0x80 + (cp / 64) mod 64; 0x80 + cp mod 64]
  else
    [0xf0 + cp / 262144; 0x80 + (cp / 4096) mod 64;
     0x80 + (cp / 64) mod 64; 0x80 + cp mod 64].

(** The integers [lo], [lo + 1], ..., [lo + n - 1]. *)
Fixpoint zrange (lo : Z) (n : nat) : list Z :=
  match n with O => [] | S n' => lo :: zrange (lo + 1) n' end.

(** The continuation case of [convert_utf8_to_cp437] on its own. *)
Definition continuation (c esc : Z) : option (Z * Z) :=
  let shift := Z.shiftr esc 24 - 1 in
  let ucs := u16 (Z.land esc 0xffffff) in
  if shift =? 0 then
    match convert_uc16_to_cp437 (u16 (Z.lor ucs (Z.land c 0x3f))) with
    | Some r => Some (r, 0)
    | None => None
    end
  else if shifts_defined shift c then
    Some (0, Z.lor (Z.lor (Z.shiftl shift 24) ucs)
                   (Z.shiftl (Z.land c 0x3f) (shift * 6)))
  else None.

(* ------------------------------------------------------------------ *)
(** ** Decoder states and checks used by the proofs *)

Definition is_byte_result (o : option Z) : bool :=
  match o with Some r => (0 <=? r) && (r <? 256) | None => false end.

Definition opt_eqb (a b : option (Z * Z)) : bool :=
  match a, b with
  | Some (x, y), Some (x', y') => (x =? x') && (y =? y')
  | None, None => true
  | _, _ => false
  end.

(** The last continuation byte of a sequence: the glyph, nothing pending. *)
Definition glyph_done (code : Z) : option (Z * Z) :=
  match convert_uc16_to_cp437 code with Some r => Some (r, 0) | None => None end.

(** The states the decoder goes through. *)
Definition lead2_state (b1 : Z) : Z := Z.lor (Z.shiftl 1 24) (Z.shiftl (Z.land b1 0x1f) 6).
Definition lead3_state (b1 : Z) : Z := Z.lor (Z.shiftl 2 24) (Z.shiftl (Z.land b1 0x0f) 12).
Definition lead4_state (b1 : Z) : Z := Z.lor (Z.shiftl 3 24) (Z.shiftl (Z.land b1 0x07) 18).
Definition mid4_state (b2 : Z) : Z := Z.lor (Z.shiftl 2 24) (Z.shiftl (Z.land b2 0x3f) 12).
Definition final_state (v : Z) : Z := Z.lor (Z.shiftl 1 24) (v * 64).

(** A lead byte answers 0 and leaves one to three bytes pending. *)
Definition lead_ok (c : Z) : bool :=
  match convert_utf8_to_cp437 c 0 with
  | Some (0, e) => (0 <=? e) && (1 <=? pending e) && (pending e <=? 3)
  | _ => false
  end.

(** The Unicode code point each code page 437 character comes from (the
    inverse of the conversion, used to state that it is complete). *)
Definition cp437_to_unicode : list Z :=
  [ 0; 9786; 9787; 9829; 9830; 9827; 9824; 8226; 9688; 9675; 9689; 9794; 9792; 9834; 9835; 9788;
    9658; 9668; 8597; 8252; 182; 167; 9644; 8616; 8593; 8595; 8594; 8592; 8735; 8596; 9650; 9660;
    32; 33; 34; 35; 36; 37; 38; 39; 40; 41; 42; 43; 44; 45; 46; 47;
    48; 49; 50; 51; 52; 53; 54; 55; 56; 57; 58; 59; 60; 61; 62; 63;
    64; 65; 66; 67; 68; 69; 70; 71; 72; 73; 74; 75; 76; 77; 78; 79;
    80; 81; 82; 83; 84; 85; 86; 87; 88; 89; 90; 91; 92; 93; 94; 95;
    96; 97; 98; 99; 100; 101; 102; 103; 104; 105; 106; 107; 108; 109; 110; 111;
    112; 113; 114; 115; 116; 117; 118; 119; 120; 121; 122; 123; 124; 125; 126; 127;
    199; 252; 233; 226; 228; 224; 229; 231; 234; 235; 232; 239; 238; 236; 196; 197;
    201; 230; 198; 244; 246; 242; 251; 249; 255; 214; 220; 162; 163; 165; 8359; 402;
    225; 237; 243; 250; 241; 209; 170; 186; 191; 8976; 172; 189; 188; 161; 171; 187;
    9617; 9618; 9619; 9474; 9508; 9569; 9570; 9558; 9557; 9571; 9553; 9559; 9565; 9564; 9563; 9488;
    9492; 9524; 9516; 9500; 9472; 9532; 9566; 9567; 9562; 9556; 9577; 9574; 9568; 9552; 9580; 9575;
    9576; 9572; 9573; 9561; 9560; 9554; 9555; 9579; 9578; 9496; 9484; 9608; 9604; 9612; 9616; 9600;
    945; 223; 915; 960; 931; 963; 181; 964; 934; 920; 937; 948; 8734; 966; 949; 8745;
    8801; 177; 8805; 8804; 8992; 8993; 247; 8776; 176; 8729; 183; 8730; 8319; 178; 9632; 160 ].

Definition source_of (b : Z) : Z := nth (Z.to_nat b) cp437_to_unicode 0.

(* ================================================================== *)
(** * Board support (arch/arm/mach-apple/board.c) *)

(** The sizes of linux/sizes.h, as their names spell them. *)
Definition SZ_4K : Z := 0x1000.
Definition SZ_256K : Z := 0x40000.
Definition SZ_1M : Z := 0x100000.
Definition SZ_2M : Z := 0x200000.
Definition SZ_4M : Z := 0x400000.
Definition SZ_8M : Z := 0x800000.
Definition SZ_128M : Z := 0x8000000.
Definition SZ_512M : Z := 0x20000000.
Definition SZ_1G : Z := 0x40000000.
Definition SZ_2G : Z := 0x80000000.

(** Conversions to [u32] and to the 64-bit [unsigned long], [fdt_addr_t]
    and [fdt_size_t]. *)
Definition u32 (z : Z) : Z := z mod 2 ^ 32.
Definition u64 (z : Z) : Z := z mod 2 ^ 64.

(** The macros and constants the file takes from headers that are not
    among the sources; they are parameters of everything below. *)
Record board_headers := mk_headers {
  ALIGN : Z -> Z -> Z;
  ALIGN_DOWN : Z -> Z -> Z;
  CONFIG_STACK_SIZE : Z;
  FDT_ADDR_T_NONE : Z;
  PTE_BLOCK_MEMTYPE : Z -> Z;
  MT_DEVICE_NGNRNE : Z;
  MT_DEVICE_NGNRE : Z;
  MT_NORMAL : Z;
  MT_NORMAL_NC : Z;
  PTE_BLOCK_NON_SHARE : Z;
  PTE_BLOCK_INNER_SHARE : Z;
  PTE_BLOCK_PXN : Z;
  PTE_BLOCK_UXN : Z
}.

(** [struct mm_region], with the fields the file uses. *)
Record mm_region := mk_region {
  virt : Z;
  phys : Z;
  size : Z;
  attrs : Z
}.

(** The four attribute expressions of the tables. *)
Definition io_attrs (h : board_headers) : Z :=
  Z.lor (Z.lor (Z.lor (PTE_BLOCK_MEMTYPE h (MT_DEVICE_NGNRNE h))
                      (PTE_BLOCK_NON_SHARE h))
               (PTE_BLOCK_PXN h)) (PTE_BLOCK_UXN h).

Definition pcie_attrs (h : board_headers) : Z :=
  Z.lor (Z.lor (Z.lor (PTE_BLOCK_MEMTYPE h (MT_DEVICE_NGNRE h))
                      (PTE_BLOCK_INNER_SHARE h))
               (PTE_BLOCK_PXN h)) (PTE_BLOCK_UXN h).

Definition ram_attrs (h : board_headers) : Z :=
  Z.lor (PTE_BLOCK_MEMTYPE h (MT_NORMAL h)) (PTE_BLOCK_INNER_SHARE h).

Definition fb_attrs (h : board_headers) : Z :=
  Z.lor (Z.lor (Z.lor (PTE_BLOCK_MEMTYPE h (MT_NORMAL_NC h))
                      (PTE_BLOCK_INNER_SHARE h))
               (PTE_BLOCK_PXN h)) (PTE_BLOCK_UXN h).

(** Apple M1 *)
Definition t8103_mem_map (h : board_headers) : list mm_region :=
  [ mk_region 0x200000000 0x200000000 (2 * SZ_1G) (io_attrs h);
    mk_region 0x380000000 0x380000000 SZ_1G (io_attrs h);
    mk_region 0x500000000 0x500000000 SZ_1G (io_attrs h);
    mk_region 0x680000000 0x680000000 SZ_512M (io_attrs h);
    mk_region 0x6a0000000 0x6a0000000 SZ_512M (pcie_attrs h);
    mk_region 0x6c0000000 0x6c0000000 SZ_1G (pcie_attrs h);
    (* RAM *)
    mk_region 0x800000000 0x800000000 (8 * SZ_1G) (ram_attrs h);
    (* Framebuffer *)
    mk_region 0 0 0 (fb_attrs h);
    (* List terminator *)
    mk_region 0 0 0 0 ].

(** Apple M1 Pro/Max *)
Definition t6000_mem_map (h : board_headers) : list mm_region :=
  [ mk_region 0x280000000 0x280000000 SZ_1G (io_attrs h);
    mk_region 0x380000000 0x380000000 SZ_1G (io_attrs h);
    mk_region 0x580000000 0x580000000 SZ_512M (io_attrs h);
    mk_region 0x5a0000000 0x5a0000000 SZ_512M (pcie_attrs h);
    mk_region 0x5c0000000 0x5c0000000 SZ_1G (pcie_attrs h);
    mk_region 0x700000000 0x700000000 SZ_1G (io_attrs h);
    mk_region 0xb00000000 0xb00000000 SZ_1G (io_attrs h);
    mk_region 0xf00000000 0xf00000000 SZ_1G (io_attrs h);
    mk_region 0x1300000000 0x1300000000 SZ_1G (io_attrs h);
    (* RAM *)
    mk_region 0x10000000000 0x10000000000 (16 * SZ_1G) (ram_attrs h);
    (* Framebuffer *)
    mk_region 0 0 0 (fb_attrs h);
    (* List terminator *)
    mk_region 0 0 0 0 ].

(** The choice of the table at the head of [build_mem_map]; [None] is the
    [panic] for an unsupported SoC.  [compatible] answers
    [of_machine_is_compatible]. *)
Definition select_mem_map (h : board_headers) (compatible : string -> bool)
  : option (list mm_region) :=
  if compatible "apple,t8103"%string then Some (t8103_mem_map h)
  else if compatible "apple,t6000"%string then Some (t6000_mem_map h)
  else if compatible "apple,t6001"%string then Some (t6000_mem_map h)
  else None.

(** [for (i = 0; mem_map[i].size || mem_map[i].attrs; i++);] from index
    [i]; [None] when the scan runs off the table. *)
Fixpoint find_terminator (mem_map : list mm_region) (i : nat) : option nat :=
  match mem_map with
  | [] => None
  | r :: rest =>
      if truthy (size r) || truthy (attrs r)
      then find_terminator rest (S i)
      else Some i
  end.

(** The three statements that align a region to page boundaries. *)
Definition page_align (h : board_headers) (base size : Z) : Z * Z :=
  let size := u64 (size + u64 (base - ALIGN_DOWN h base SZ_4K)) in
  let base := ALIGN_DOWN h base SZ_4K in
  let size := ALIGN h size SZ_4K in
  (base, size).

(** [mem_map[idx].virt = base; mem_map[idx].phys = base;
    mem_map[idx].size = size;]; [None] when [idx] is outside the table. *)
Definition set_mapping (mem_map : list mm_region) (idx : Z) (base size : Z)
  : option (list mm_region) :=
  if idx <? 0 then None
  else
    match nth_error mem_map (Z.to_nat idx) with
    | None => None
    | Some r =>
        Some (firstn (Z.to_nat idx) mem_map ++
              mk_region base base size (attrs r) ::
              skipn (S (Z.to_nat idx)) mem_map)
    end.

(** [build_mem_map]: the table [mem_map] points to afterwards.  [dram] is
    [gd->bd->bi_dram[0]]; [fb] is [None] when the node /chosen/framebuffer
    is not valid and otherwise what [ofnode_get_addr_size] gave for its
    reg property. *)
Definition build_mem_map (h : board_headers) (compatible : string -> bool)
    (dram : Z * Z) (fb : option (Z * Z)) : option (list mm_region) :=
  match select_mem_map h compatible with
  | None => None
  | Some mem_map =>
      match find_terminator mem_map 0 with
      | None => None
      | Some i =>
          let '(base, size) := page_align h (fst dram) (snd dram) in
          match set_mapping mem_map (Z.of_nat i - 2) base size with
          | None => None
          | Some mem_map =>
              match fb with
              | None => Some mem_map
              | Some (base, size) =>
                  if base =? FDT_ADDR_T_NONE h then Some mem_map
                  else
                    let '(base, size) := page_align h base size in
                    set_mapping mem_map (Z.of_nat i - 1) base size
              end
          end
      end
  end.

(** What [board_late_init] leaves: its return value, whether it logged the
    warning, and the [env_set_hex] calls it made, in order. *)
Record late_init_result := mk_late {
  late_ret : Z;
  late_warned : bool;
  late_env : list (string * Z)
}.

(** [board_late_init]: [env_set_hex] answers the status of each call. *)
Definition board_late_init (h : board_headers) (start_addr_sp ram_base : Z)
    (env_set_hex : string -> Z -> Z) : late_init_result :=
  let status := 0 in
  let top := u64 (start_addr_sp - CONFIG_STACK_SIZE h - SZ_8M - SZ_1M) in
  let top := ALIGN_DOWN h top SZ_8M in
  let c1 := ("scriptaddr"%string, u64 (top + SZ_4M)) in
  let status := Z.lor status (u32 (env_set_hex (fst c1) (snd c1))) in
  let c2 := ("pxefile_addr_r"%string, top) in
  let status := Z.lor status (u32 (env_set_hex (fst c2) (snd c2))) in
  let base := ALIGN h ram_base SZ_2M in
  let c3 := ("fdt_addr_r"%string, base) in
  let status := Z.lor status (u32 (env_set_hex (fst c3) (snd c3))) in
  let c4 := ("kernel_addr_r"%string, u64 (base + SZ_2M)) in
  let status := Z.lor status (u32 (env_set_hex (fst c4) (snd c4))) in
  let c5 := ("ramdisk_addr_r"%string, u64 (base + SZ_128M)) in
  let status := Z.lor status (u32 (env_set_hex (fst c5) (snd c5))) in
  let c6 := ("loadaddr"%string, u64 (base + SZ_2G)) in
  let status := Z.lor status (u32 (env_set_hex (fst c6) (snd c6))) in
  {| late_ret := 0;
     late_warned := truthy status;
     late_env := [c1; c2; c3; c4; c5; c6] |}.

(** The value a variable has after the calls: the last one set. *)
Fixpoint env_get (name : string) (env : list (string * Z)) : option Z :=
  match env with
  | [] => None
  | (n, v) :: rest =>
      match env_get name rest with
      | Some v' => Some v'
      | None => if String.eqb n name then Some v else None
      end
  end.

(** What the properties below ask of the absent macros: for a power of
    two [a], [ALIGN_DOWN] and [ALIGN] round a 64-bit value down and up to a
    multiple of [a] (up only when that does not pass 2^64); the framebuffer
    attributes are not zero and the stack size is not negative. *)
Record headers_ok (h : board_headers) : Prop := mk_headers_ok {
  align_down_spec : forall x a n, 0 <= n < 64 -> a = 2 ^ n ->
    0 <= x < 2 ^ 64 ->
    0 <= ALIGN_DOWN h x a <= x /\ x < ALIGN_DOWN h x a + a /\
    (a | ALIGN_DOWN h x a);
  align_spec : forall x a n, 0 <= n < 64 -> a = 2 ^ n ->
    0 <= x -> x + a <= 2 ^ 64 ->
    x <= ALIGN h x a < x + a /\ (a | ALIGN h x a);
  fb_attrs_nonzero : fb_attrs h <> 0;
  stack_size_nonneg : 0 <= CONFIG_STACK_SIZE h
}.

(** An instance: the macros as they act on powers of two, and the values
    of the constants for 64-bit ARM. *)
Definition arm64_headers : board_headers :=
  {| ALIGN := fun x a => (x + (a - 1)) / a * a;
     ALIGN_DOWN := fun x a => x / a * a;
     CONFIG_STACK_SIZE := 0x1000000;
     FDT_ADDR_T_NONE := 2 ^ 64 - 1;
     PTE_BLOCK_MEMTYPE := fun x => Z.shiftl x 2;
     MT_DEVICE_NGNRNE := 0;
     MT_DEVICE_NGNRE := 1;
     MT_NORMAL := 4;
     MT_NORMAL_NC := 3;
     PTE_BLOCK_NON_SHARE := Z.shiftl 0 8;
     PTE_BLOCK_INNER_SHARE := Z.shiftl 3 8;
     PTE_BLOCK_PXN := Z.shiftl 1 53;
     PTE_BLOCK_UXN := Z.shiftl 1 54 |}.

(** The mappings [build_mem_map] writes. *)
Definition ram_mapping (h : board_headers) (dram : Z * Z) : mm_region :=
  let '(base, size) := page_align h (fst dram) (snd dram) in
  mk_region base base size (ram_attrs h).

Definition fb_mapping (h : board_headers) (fb : option (Z * Z)) : mm_region :=
  match fb with
  | None => mk_region 0 0 0 (fb_attrs h)
  | Some (base, size) =>
      if base =? FDT_ADDR_T_NONE h then mk_region 0 0 0 (fb_attrs h)
      else
        let '(base, size) := page_align h base size in
        mk_region base base size (fb_attrs h)
  end.

(* ================================================================== *)
(** * Concrete runs *)

Example diff_press_5 :
  diff (rep 0 [4;0;0;0;0;0]) (rep 0 [4;5;0;0;0;0]) = [mk_event 5 true].
Proof. reflexivity. Qed.

Example diff_release_4 :
  diff (rep 0 [4;5;0;0;0;0]) (rep 0 [5;0;0;0;0;0]) = [mk_event 4 false].
Proof. reflexivity. Qed.

Example diff_mods_0x22 :
  diff (rep 0 [0;0;0;0;0;0]) (rep 0x22 [0;0;0;0;0;0]) =
  [mk_event 0xe1 true; mk_event 0xe5 true].
Proof. reflexivity. Qed.

Example sample_packet_accepted :
  apple_spi_kbd_check 0 sample_packet initial_config =
  (1, {| dev_priv := {| old := report_of sample_packet; new := report_of sample_packet |};
         delivered := [mk_event 0xe1 true; mk_event 4 true] |}).
Proof. reflexivity. Qed.

Example wrong_flags_rejected :
  apple_spi_kbd_check 0 (0x21 :: tl sample_packet) initial_config = (0, initial_config).
Proof. reflexivity. Qed.

(* ================================================================== *)
(** * Bits *)

Lemma truthy_land_BIT (x k : Z) :
  0 <= k -> truthy (Z.land x (BIT k)) = Z.testbit x k.
Proof.
  intros Hk. unfold truthy, BIT. rewrite Z.shiftl_1_l.
  destruct (Z.testbit x k) eqn:E.
  - destruct (Z.eqb_spec (Z.land x (2 ^ k)) 0) as [H0 | _]; [ | reflexivity ].
    assert (Hb : Z.testbit (Z.land x (2 ^ k)) k = true).
    { rewrite Z.land_spec, E, Z.pow2_bits_true by assumption. reflexivity. }
    rewrite H0, Z.bits_0 in Hb. discriminate.
  - assert (H0 : Z.land x (2 ^ k) = 0).
    { apply Z.bits_inj'. intros n Hn.
      rewrite Z.land_spec, Z.bits_0, Z.pow2_bits_eqb by assumption.
      destruct (Z.eqb_spec k n) as [-> | _].
      - rewrite E. reflexivity.
      - apply andb_false_r. }
    rewrite H0. reflexivity.
Qed.

Lemma modifier_test (o n k : Z) :
  0 <= k ->
  truthy (Z.land (Z.lxor n o) (BIT k)) = negb (Bool.eqb (Z.testbit o k) (Z.testbit n k)).
Proof.
  intros Hk. rewrite truthy_land_BIT, Z.lxor_spec by assumption.
  destruct (Z.testbit o k), (Z.testbit n k); reflexivity.
Qed.

(* ================================================================== *)
(** * Running the monad *)

Lemma emits_ret : emits (ret tt) (fun _ => []).
Proof. intros [p d]. unfold ret. simpl. rewrite app_nil_r. reflexivity. Qed.

Lemma emits_add (k r : Z) :
  emits (input_add_keycode k r) (fun _ => [mk_event k (negb (truthy r))]).
Proof. intros s. reflexivity. Qed.

Lemma emits_ext (m : M unit) (f g : apple_spi_kbd_priv -> list KeyEvent) :
  (forall p, f p = g p) -> emits m f -> emits m g.
Proof. intros E H s. rewrite H, E. reflexivity. Qed.

Lemma emits_when (b : bool) (m : M unit) f :
  emits m f -> emits (when b m) (fun p => if b then f p else []).
Proof. intros H. destruct b; simpl; [ exact H | exact emits_ret ]. Qed.

Lemma emits_seq (m k : M unit) f g :
  emits m f -> emits k g -> emits (m ;; k) (fun p => f p ++ g p).
Proof.
  intros Hm Hk s. unfold bind. rewrite Hm, Hk. simpl.
  rewrite app_assoc. reflexivity.
Qed.

Lemma emits_get (k : apple_spi_kbd_priv -> M unit) f :
  (forall p, emits (k p) (f p)) -> emits (p <- dev_get_priv ;; k p) (fun p => f p p).
Proof. intros H s. unfold bind, dev_get_priv. apply H. Qed.

Lemma emits_for (body : nat -> M unit) f :
  (forall i, emits (body i) (f i)) ->
  forall n lo, emits (for_loop lo n body) (fun p => flat_map (fun i => f i p) (seq lo n)).
Proof.
  intros Hb. induction n as [ | n IH ]; intros lo; simpl.
  - exact emits_ret.
  - apply (emits_seq _ _ _ _ (Hb lo) (IH (S lo))).
Qed.

(* ------------------------------------------------------------------ *)
(** ** The scan *)

Lemma memscan_from_misses (addr : list Z) (c : Z) :
  forall n p,
    Nat.eqb (memscan_from addr c p n) (p + n) =
    forallb (fun j => negb (byte_at addr j =? c)) (seq p n).
Proof.
  induction n as [ | n IH ]; intros p; simpl.
  - rewrite Nat.add_0_r. apply Nat.eqb_refl.
  - destruct (byte_at addr p =? c); simpl.
    + apply Nat.eqb_neq. lia.
    + rewrite <- IH. f_equal. lia.
Qed.

Lemma scan_misses_slots (arr : list Z) (c : Z) :
  scan_misses arr c =
  forallb (fun j => negb (byte_at arr j =? c)) (seq 0 sizeof_keycode).
Proof. unfold scan_misses, memscan. apply (memscan_from_misses arr c sizeof_keycode 0). Qed.

Lemma six_slots (arr : list Z) :
  length arr = sizeof_keycode ->
  map (byte_at arr) (seq 0 sizeof_keycode) = arr.
Proof.
  intros H.
  destruct arr as [ | x0 [ | x1 [ | x2 [ | x3 [ | x4 [ | x5 [ | x6 t ]]]]]]];
    try discriminate H.
  reflexivity.
Qed.

Lemma scan_misses_appears (arr : list Z) (c : Z) :
  length arr = sizeof_keycode ->
  scan_misses arr c = negb (appears c arr).
Proof.
  intros H. rewrite scan_misses_slots. unfold appears.
  replace (existsb (Z.eqb c) arr)
    with (existsb (Z.eqb c) (map (byte_at arr) (seq 0 sizeof_keycode)))
    by (rewrite (six_slots arr H); reflexivity).
  generalize (seq 0 sizeof_keycode). intros l.
  induction l as [ | j l IH ]; simpl; [ reflexivity | ].
  rewrite IH, negb_orb, (Z.eqb_sym c). reflexivity.
Qed.

Lemma appears_In (c : Z) (arr : list Z) : appears c arr = true <-> In c arr.
Proof.
  unfold appears. rewrite existsb_exists. split.
  - intros [x [Hin Hx]]. apply Z.eqb_eq in Hx. subst. exact Hin.
  - intros Hin. exists c. split; [ exact Hin | apply Z.eqb_refl ].
Qed.

(* ------------------------------------------------------------------ *)
(** ** What each service routine delivers *)

Lemma service_key_release (i : nat) :
  emits (apple_spi_kbd_service_key i 1) (fun p => release_check p i).
Proof.
  intros s. unfold apple_spi_kbd_service_key, bind, dev_get_priv, release_check, scan_misses.
  simpl. destruct (Nat.eqb _ _); simpl.
  - reflexivity.
  - unfold ret. rewrite app_nil_r. destruct s; reflexivity.
Qed.

Lemma service_key_press (i : nat) :
  emits (apple_spi_kbd_service_key i 0) (fun p => press_check p i).
Proof.
  intros s. unfold apple_spi_kbd_service_key, bind, dev_get_priv, press_check, scan_misses.
  simpl. destruct (Nat.eqb _ _); simpl.
  - reflexivity.
  - unfold ret. rewrite app_nil_r. destruct s; reflexivity.
Qed.

Lemma modifier_step (o n k key : Z) :
  0 <= k ->
  emits (when (truthy (Z.land (Z.lxor n o) (BIT k)))
              (input_add_keycode key (Z.land o (BIT k))))
        (fun _ => modifier_transition o n (k, key)).
Proof.
  intros Hk.
  eapply emits_ext; [ | apply emits_when, emits_add ].
  intros p. unfold modifier_transition. simpl.
  rewrite modifier_test, truthy_land_BIT by assumption.
  destruct (Z.testbit o k), (Z.testbit n k); reflexivity.
Qed.

Lemma service_modifiers_emits :
  emits apple_spi_kbd_service_modifiers modifier_check.
Proof.
  unfold apple_spi_kbd_service_modifiers.
  eapply emits_ext; [ | apply emits_get; intros p;
    apply emits_seq; [ apply (modifier_step _ _ 0); lia | ];
    apply emits_seq; [ apply (modifier_step _ _ 4); lia | ];
    apply emits_seq; [ apply (modifier_step _ _ 1); lia | ];
    apply (modifier_step _ _ 5); lia ].
  intros p. unfold modifier_check. simpl. rewrite app_nil_r. reflexivity.
Qed.

Lemma key_loop_emits :
  emits (for_loop 0 sizeof_keycode (fun i =>
           apple_spi_kbd_service_key i 1 ;; apple_spi_kbd_service_key i 0))
        (fun p => flat_map (fun i => release_check p i ++ press_check p i)
                           (seq 0 sizeof_keycode)).
Proof.
  apply (emits_for _ (fun i p => release_check p i ++ press_check p i)).
  intros i. apply emits_seq; [ apply service_key_release | apply service_key_press ].
Qed.

Lemma service_all_emits :
  emits service_all
        (fun p => modifier_check p ++
                  flat_map (fun i => release_check p i ++ press_check p i)
                           (seq 0 sizeof_keycode)).
Proof. apply emits_seq; [ apply service_modifiers_emits | apply key_loop_emits ]. Qed.

Lemma diff_unfold (a b : apple_spi_kbd_report) :
  diff a b =
  modifier_check (mk_priv a b) ++
  flat_map (fun i => release_check (mk_priv a b) i ++ press_check (mk_priv a b) i)
           (seq 0 sizeof_keycode).
Proof. unfold diff, events_of. rewrite service_all_emits. reflexivity. Qed.

Lemma modifier_events_unfold (a b : apple_spi_kbd_report) :
  modifier_events a b = modifier_check (mk_priv a b).
Proof. unfold modifier_events, events_of. rewrite service_modifiers_emits. reflexivity. Qed.

Lemma key_slot_events_unfold (a b : apple_spi_kbd_report) :
  key_slot_events a b =
  flat_map (fun i => release_check (mk_priv a b) i ++ press_check (mk_priv a b) i)
           (seq 0 sizeof_keycode).
Proof. unfold key_slot_events, events_of. rewrite key_loop_emits. reflexivity. Qed.

Lemma diff_split (a b : apple_spi_kbd_report) :
  diff a b = modifier_events a b ++ key_slot_events a b.
Proof.
  rewrite diff_unfold, modifier_events_unfold, key_slot_events_unfold. reflexivity.
Qed.

Lemma release_check_wf (a b : apple_spi_kbd_report) (i : nat) :
  report_wf b -> release_check (mk_priv a b) i = slot_release a b i.
Proof.
  intros Hb. unfold release_check, slot_release. simpl.
  rewrite scan_misses_appears by exact Hb.
  destruct (appears _ _); reflexivity.
Qed.

Lemma press_check_wf (a b : apple_spi_kbd_report) (i : nat) :
  report_wf a -> press_check (mk_priv a b) i = slot_press a b i.
Proof.
  intros Ha. unfold press_check, slot_press. simpl.
  rewrite scan_misses_appears by exact Ha.
  destruct (appears _ _); reflexivity.
Qed.

Lemma slot_release_events_unfold (a b : apple_spi_kbd_report) (i : nat) :
  slot_release_events a b i = release_check (mk_priv a b) i.
Proof. unfold slot_release_events, events_of. rewrite service_key_release. reflexivity. Qed.

Lemma slot_press_events_unfold (a b : apple_spi_kbd_report) (i : nat) :
  slot_press_events a b i = press_check (mk_priv a b) i.
Proof. unfold slot_press_events, events_of. rewrite service_key_press. reflexivity. Qed.

(* ------------------------------------------------------------------ *)
(** ** List helpers *)

Lemma filter_flat_map {A B} (p : B -> bool) (f : A -> list B) (l : list A) :
  filter p (flat_map f l) = flat_map (fun x => filter p (f x)) l.
Proof.
  induction l as [ | x l IH ]; simpl; [ reflexivity | ].
  rewrite filter_app, IH. reflexivity.
Qed.

Lemma map_flat_map {A B C} (g : B -> C) (f : A -> list B) (l : list A) :
  map g (flat_map f l) = flat_map (fun x => map g (f x)) l.
Proof.
  induction l as [ | x l IH ]; simpl; [ reflexivity | ].
  rewrite map_app, IH. reflexivity.
Qed.

Lemma flat_map_nil {A B} (f : A -> list B) (l : list A) :
  (forall x, In x l -> f x = []) -> flat_map f l = [].
Proof.
  induction l as [ | x l IH ]; simpl; intros H; [ reflexivity | ].
  rewrite (H x) by (left; reflexivity). simpl. apply IH.
  intros y Hy. apply H. right. exact Hy.
Qed.

Lemma invert_invert (e : KeyEvent) : invert (invert e) = e.
Proof. destruct e as [k p]. unfold invert. simpl. rewrite negb_involutive. reflexivity. Qed.

(* ------------------------------------------------------------------ *)
(** ** A value held in a slot is found by the scan *)

Lemma scan_finds_slot (arr : list Z) (i : nat) :
  (i < sizeof_keycode)%nat -> scan_misses arr (byte_at arr i) = false.
Proof.
  intros Hi. rewrite scan_misses_slots.
  destruct (forallb _ _) eqn:E; [ | reflexivity ].
  rewrite forallb_forall in E.
  assert (Hin : In i (seq 0 sizeof_keycode)) by (apply in_seq; lia).
  specialize (E i Hin). rewrite Z.eqb_refl in E. discriminate E.
Qed.

Lemma slot_In (arr : list Z) (i : nat) :
  length arr = sizeof_keycode -> (i < sizeof_keycode)%nat -> In (byte_at arr i) arr.
Proof. intros H Hi. apply nth_In. rewrite H. exact Hi. Qed.

Lemma modifier_check_same (p : apple_spi_kbd_priv) :
  modifiers (old p) = modifiers (new p) -> modifier_check p = [].
Proof.
  intros E. unfold modifier_check. rewrite E. apply flat_map_nil.
  intros m _. unfold modifier_transition. rewrite eqb_reflx. reflexivity.
Qed.

Lemma key_checks_nil (p : apple_spi_kbd_priv) :
  (forall i, (i < sizeof_keycode)%nat ->
     scan_misses (keycode (new p)) (byte_at (keycode (old p)) i) = false /\
     scan_misses (keycode (old p)) (byte_at (keycode (new p)) i) = false) ->
  flat_map (fun i => release_check p i ++ press_check p i) (seq 0 sizeof_keycode) = [].
Proof.
  intros H. apply flat_map_nil. intros i Hi. apply in_seq in Hi.
  destruct (H i) as [H1 H2]; [ lia | ].
  unfold release_check, press_check. rewrite H1, H2. reflexivity.
Qed.

Lemma diff_same_keys (a b : apple_spi_kbd_report) :
  keycode a = keycode b -> diff a b = modifier_events a b.
Proof.
  intros E. rewrite diff_split, key_slot_events_unfold, key_checks_nil.
  - apply app_nil_r.
  - intros i Hi. simpl. rewrite E. split; apply scan_finds_slot; exact Hi.
Qed.

(** Nothing is delivered between two equal reports. *)
Lemma diff_nil_same (r : apple_spi_kbd_report) : diff r r = [].
Proof.
  rewrite diff_same_keys, modifier_events_unfold by reflexivity.
  apply modifier_check_same. reflexivity.
Qed.

Lemma key_slot_events_membership (a b : apple_spi_kbd_report) :
  report_wf a -> report_wf b ->
  key_slot_events a b =
  flat_map (fun i => slot_release a b i ++ slot_press a b i) (seq 0 sizeof_keycode).
Proof.
  intros Ha Hb. rewrite key_slot_events_unfold. apply flat_map_ext. intros i.
  rewrite release_check_wf, press_check_wf by assumption. reflexivity.
Qed.

Lemma In_slot (arr : list Z) (k : Z) :
  length arr = sizeof_keycode -> In k arr ->
  exists i, (i < sizeof_keycode)%nat /\ byte_at arr i = k.
Proof.
  intros H Hin. destruct (In_nth arr k 0 Hin) as [i [Hi E]].
  exists i. split; [ rewrite <- H; exact Hi | exact E ].
Qed.

Lemma appears_false (c : Z) (arr : list Z) : appears c arr = false <-> ~ In c arr.
Proof.
  rewrite <- appears_In. destruct (appears c arr); split; congruence.
Qed.

(** A release of [k] is among the key-slot events exactly when [k] is held
    in the previous array and absent from the current one. *)
Lemma release_in_key_slots (a b : apple_spi_kbd_report) (k : Z) :
  report_wf a -> report_wf b ->
  In (mk_event k false) (key_slot_events a b) <->
  In k (keycode a) /\ ~ In k (keycode b).
Proof.
  intros Ha Hb. rewrite key_slot_events_membership by assumption.
  rewrite in_flat_map. split.
  - intros [i [Hi He]]. apply in_seq in Hi. apply in_app_or in He.
    unfold slot_release, slot_press in He. destruct He as [He | He].
    + destruct (appears _ (keycode b)) eqn:A; [ destruct He | ].
      destruct He as [He | []]. injection He as E. rewrite <- E.
      split; [ apply slot_In; [ exact Ha | lia ] | apply appears_false; exact A ].
    + destruct (appears _ (keycode a)); [ destruct He | ].
      destruct He as [He | []]. discriminate He.
  - intros [Hin Hout]. destruct (In_slot _ _ Ha Hin) as [i [Hi E]].
    exists i. split; [ apply in_seq; lia | ].
    apply in_or_app. left. unfold slot_release. rewrite E.
    apply appears_false in Hout. rewrite Hout. left. reflexivity.
Qed.

(** A press of [k] is among the key-slot events exactly when [k] is held in
    the current array and absent from the previous one. *)
Lemma press_in_key_slots (a b : apple_spi_kbd_report) (k : Z) :
  report_wf a -> report_wf b ->
  In (mk_event k true) (key_slot_events a b) <->
  In k (keycode b) /\ ~ In k (keycode a).
Proof.
  intros Ha Hb. rewrite key_slot_events_membership by assumption.
  rewrite in_flat_map. split.
  - intros [i [Hi He]]. apply in_seq in Hi. apply in_app_or in He.
    unfold slot_release, slot_press in He. destruct He as [He | He].
    + destruct (appears _ (keycode b)); [ destruct He | ].
      destruct He as [He | []]. discriminate He.
    + destruct (appears _ (keycode a)) eqn:A; [ destruct He | ].
      destruct He as [He | []]. injection He as E. rewrite <- E.
      split; [ apply slot_In; [ exact Hb | lia ] | apply appears_false; exact A ].
  - intros [Hin Hout]. destruct (In_slot _ _ Hb Hin) as [i [Hi E]].
    exists i. split; [ apply in_seq; lia | ].
    apply in_or_app. right. unfold slot_press. rewrite E.
    apply appears_false in Hout. rewrite Hout. left. reflexivity.
Qed.

(** The modifier events carry the four modifier key codes only. *)
Lemma modifier_event_keycode (p : apple_spi_kbd_priv) (e : KeyEvent) :
  In e (modifier_check p) ->
  In (ev_keycode e)
     [HID_KEY_LEFTCTRL; HID_KEY_RIGHTCTRL; HID_KEY_LEFTSHIFT; HID_KEY_RIGHTSHIFT].
Proof.
  unfold modifier_check. rewrite in_flat_map. intros [m [Hm He]].
  unfold modifier_transition in He.
  destruct (Bool.eqb _ _); [ destruct He | ].
  destruct He as [<- | []]. simpl ev_keycode.
  change [HID_KEY_LEFTCTRL; HID_KEY_RIGHTCTRL; HID_KEY_LEFTSHIFT; HID_KEY_RIGHTSHIFT]
    with (map snd tracked_modifiers).
  apply in_map. exact Hm.
Qed.

(* ================================================================== *)
(** * Properties of the differ *)

(** C4: for every pair of reports the differ delivers, first, one event per
    tracked modifier bit that differs between the two modifier bytes, in the
    order left-ctrl, right-ctrl, left-shift, right-shift, with the bit's key
    code (0xE0, 0xE4, 0xE1, 0xE5) and pressed equal to the bit's new value,
    and nothing for a bit that did not change; then, for the six key slots in
    array order, what the slot's release check delivers followed by what its
    press check delivers. *)
Theorem diff_modifiers_then_slots (previous current : apple_spi_kbd_report) :
  diff previous current =
    flat_map (modifier_transition (modifiers previous) (modifiers current))
             [ (0, 0xe0); (4, 0xe4); (1, 0xe1); (5, 0xe5) ] ++
    flat_map (fun i => slot_release_events previous current i ++
                       slot_press_events previous current i)
             (seq 0 6)
  /\ (forall i, forallb is_release (slot_release_events previous current i) = true)
  /\ (forall i, forallb is_press (slot_press_events previous current i) = true).
Proof.
  split; [ | split ].
  - rewrite diff_unfold. f_equal. apply flat_map_ext. intros i.
    rewrite slot_release_events_unfold, slot_press_events_unfold. reflexivity.
  - intros i. rewrite slot_release_events_unfold. unfold release_check.
    destruct (scan_misses _ _); reflexivity.
  - intros i. rewrite slot_press_events_unfold. unfold press_check.
    destruct (scan_misses _ _); reflexivity.
Qed.

(** C5, as the driver has it: bit 5 of the modifier byte is right-shift and
    bit 1 is left-shift, so from modifier byte 0b00000000 to 0b00100010 with
    identical keycode slots the differ delivers exactly (0xE1, pressed) and
    then (0xE5, pressed). *)
Theorem diff_both_shifts (previous current : apple_spi_kbd_report)
    (Hprev : modifiers previous = 0)
    (Hcur : modifiers current = 0x22)
    (Hkeys : keycode previous = keycode current) :
  diff previous current = [mk_event 0xe1 true; mk_event 0xe5 true].
Proof.
  rewrite (diff_same_keys _ _ Hkeys), modifier_events_unfold.
  unfold modifier_check. simpl. rewrite Hprev, Hcur. reflexivity.
Qed.

Lemma diff_both_shifts_witness :
  modifiers (rep 0 [4;0;0;0;0;0]) = 0 /\
  modifiers (rep 0x22 [4;0;0;0;0;0]) = 0x22 /\
  keycode (rep 0 [4;0;0;0;0;0]) = keycode (rep 0x22 [4;0;0;0;0;0]) /\
  diff (rep 0 [4;0;0;0;0;0]) (rep 0x22 [4;0;0;0;0;0]) =
    [mk_event 0xe1 true; mk_event 0xe5 true].
Proof.
  split; [ reflexivity | split; [ reflexivity | split; [ reflexivity | ] ] ].
  apply (diff_both_shifts (rep 0 [4;0;0;0;0;0]) (rep 0x22 [4;0;0;0;0;0]));
    reflexivity.
Defined.

(** C5 as stated fails: with previous modifier byte 0 and current modifier
    byte 0b00100010 the differ does not deliver (0xE4, pressed) then
    (0xE1, pressed). *)
Lemma diff_0x22_not_right_ctrl :
  diff (rep 0 [0;0;0;0;0;0]) (rep 0x22 [0;0;0;0;0;0]) <>
  [mk_event 0xe4 true; mk_event 0xe1 true].
Proof. vm_compute. discriminate. Qed.

(** C3: for every pair of reports the key-slot part of the differ is, slot
    by slot in array order, a release of previous.keycode[i] exactly when
    that value appears nowhere in the current array, followed by a press of
    current.keycode[i] exactly when that value appears nowhere in the
    previous array; a value present in both arrays yields no key-slot event;
    and the two steps of the end-to-end scenario give [(5, pressed)] and
    [(4, released)]. *)
Theorem key_slots_by_membership (previous current : apple_spi_kbd_report)
    (Hprev : report_wf previous) (Hcur : report_wf current) :
  key_slot_events previous current =
    flat_map (fun i => slot_release previous current i ++
                       slot_press previous current i) (seq 0 6)
  /\ (forall k, In k (keycode previous) -> In k (keycode current) ->
        forall e, In e (key_slot_events previous current) -> ev_keycode e <> k)
  /\ diff (rep 0 [4;0;0;0;0;0]) (rep 0 [4;5;0;0;0;0]) = [mk_event 5 true]
  /\ diff (rep 0 [4;5;0;0;0;0]) (rep 0 [5;0;0;0;0;0]) = [mk_event 4 false].
Proof.
  assert (E : key_slot_events previous current =
    flat_map (fun i => slot_release previous current i ++
                       slot_press previous current i) (seq 0 6))
    by (apply key_slot_events_membership; assumption).
  split; [ exact E | split; [ | split; reflexivity ] ].
  intros k Hp Hc e He. rewrite E in He.
  apply in_flat_map in He. destruct He as [i [_ He]].
  apply in_app_or in He. unfold slot_release, slot_press in He.
  intros Hk. destruct He as [He | He].
  - destruct (appears _ (keycode current)) eqn:A; [ destruct He | ].
    destruct He as [<- | []]. simpl in Hk. rewrite Hk in A.
    apply appears_In in Hc. congruence.
  - destruct (appears _ (keycode previous)) eqn:A; [ destruct He | ].
    destruct He as [<- | []]. simpl in Hk. rewrite Hk in A.
    apply appears_In in Hp. congruence.
Qed.

Lemma key_slots_by_membership_witness :
  report_wf (rep 0 [4;5;0;0;0;0]) /\ report_wf (rep 0 [5;0;0;0;0;0]) /\
  key_slot_events (rep 0 [4;5;0;0;0;0]) (rep 0 [5;0;0;0;0;0]) =
    flat_map (fun i => slot_release (rep 0 [4;5;0;0;0;0]) (rep 0 [5;0;0;0;0;0]) i ++
                       slot_press (rep 0 [4;5;0;0;0;0]) (rep 0 [5;0;0;0;0;0]) i)
             (seq 0 6).
Proof.
  split; [ reflexivity | split; [ reflexivity | ] ].
  apply (key_slots_by_membership (rep 0 [4;5;0;0;0;0]) (rep 0 [5;0;0;0;0;0]));
    reflexivity.
Defined.

(** C6: the differ delivers nothing when the current report equals the
    previous one, and nothing when the current report has the same modifier
    byte and its six keycode slots are a permutation of the previous
    report's slots. *)
Theorem diff_idempotent_rollover (r : apple_spi_kbd_report) :
  diff r r = [] /\
  forall current, report_wf r ->
    modifiers current = modifiers r ->
    Permutation (keycode r) (keycode current) ->
    diff r current = [].
Proof.
  split.
  - apply diff_nil_same.
  - intros current Hr Hm Hp.
    assert (Hc : report_wf current).
    { unfold report_wf. rewrite <- (Permutation_length Hp). exact Hr. }
    rewrite diff_unfold, modifier_check_same by (simpl; congruence).
    simpl app. apply key_checks_nil. intros i Hi. simpl.
    split; rewrite scan_misses_appears by assumption;
      apply negb_false_iff, appears_In.
    + apply (Permutation_in _ Hp). apply slot_In; assumption.
    + apply (Permutation_in _ (Permutation_sym Hp)). apply slot_In; assumption.
Qed.

Lemma diff_idempotent_rollover_witness :
  report_wf (rep 0x02 [4;5;0;0;0;0]) /\
  modifiers (rep 0x02 [5;4;0;0;0;0]) = modifiers (rep 0x02 [4;5;0;0;0;0]) /\
  Permutation (keycode (rep 0x02 [4;5;0;0;0;0])) (keycode (rep 0x02 [5;4;0;0;0;0])) /\
  diff (rep 0x02 [4;5;0;0;0;0]) (rep 0x02 [5;4;0;0;0;0]) = [].
Proof.
  assert (Hp : Permutation (keycode (rep 0x02 [4;5;0;0;0;0]))
                           (keycode (rep 0x02 [5;4;0;0;0;0]))) by apply perm_swap.
  split; [ reflexivity | split; [ reflexivity | split; [ exact Hp | ] ] ].
  apply (proj2 (diff_idempotent_rollover (rep 0x02 [4;5;0;0;0;0])));
    [ reflexivity | reflexivity | exact Hp ].
Defined.

(** C7: for every two reports a and b, the release events of diff(a, b), in
    order, are the press events of diff(b, a) with the pressed flag inverted,
    and the press events of diff(a, b) are the release events of diff(b, a)
    with the flag inverted. *)
Theorem diff_symmetric (a b : apple_spi_kbd_report) :
  filter is_release (diff a b) = map invert (filter is_press (diff b a)) /\
  filter is_press (diff a b) = map invert (filter is_release (diff b a)).
Proof.
  assert (H : forall x y,
    filter is_release (diff x y) = map invert (filter is_press (diff y x))).
  { intros x y. rewrite !diff_unfold, !filter_app, map_app. f_equal.
    - unfold modifier_check. rewrite !filter_flat_map, map_flat_map.
      apply flat_map_ext. intros m. unfold modifier_transition. simpl.
      destruct (Z.testbit (modifiers x) (fst m)),
               (Z.testbit (modifiers y) (fst m)); reflexivity.
    - rewrite !filter_flat_map, map_flat_map.
      apply flat_map_ext. intros i. unfold release_check, press_check. simpl.
      destruct (scan_misses (keycode y) _), (scan_misses (keycode x) _);
        reflexivity. }
  split; [ apply H | ].
  rewrite H, map_map.
  rewrite (map_ext _ (fun e => e)) by apply invert_invert.
  symmetry. apply map_id.
Qed.

(** C1 as stated fails: from six empty slots to six non-zero slots the
    differ delivers release events with keycode 0. *)
Lemma zero_slot_released :
  exists e,
    In e (diff (rep 0 [0;0;0;0;0;0]) (rep 0 [4;5;6;7;8;9])) /\ ev_keycode e = 0.
Proof. exists (mk_event 0 false). split; [ left | ]; reflexivity. Qed.

(** C1, as the driver has it: the scan treats 0 like any other value.  The
    differ delivers a release with keycode 0 exactly when the previous
    report has a slot holding 0 and no slot of the current report holds 0,
    and a press with keycode 0 exactly when the current report has a slot
    holding 0 and no slot of the previous report holds 0; so no event
    carries keycode 0 when both reports have an empty slot, and six empty
    slots followed by six empty slots deliver nothing under a constant
    modifier byte. *)
Theorem zero_slot_events (previous current : apple_spi_kbd_report)
    (Hprev : report_wf previous) (Hcur : report_wf current) :
  (In (mk_event 0 false) (diff previous current) <->
     In 0 (keycode previous) /\ ~ In 0 (keycode current))
  /\ (In (mk_event 0 true) (diff previous current) <->
     In 0 (keycode current) /\ ~ In 0 (keycode previous))
  /\ (In 0 (keycode previous) -> In 0 (keycode current) ->
      forall e, In e (diff previous current) -> ev_keycode e <> 0)
  /\ (forall m, diff (rep m [0;0;0;0;0;0]) (rep m [0;0;0;0;0;0]) = []).
Proof.
  assert (Hmod : forall b, ~ In (mk_event 0 b) (modifier_events previous current)).
  { intros b Hin. rewrite modifier_events_unfold in Hin.
    apply modifier_event_keycode in Hin. simpl in Hin.
    repeat (destruct Hin as [Hin | Hin]; [ discriminate Hin | ]). exact Hin. }
  assert (Hrel : In (mk_event 0 false) (diff previous current) <->
                 In 0 (keycode previous) /\ ~ In 0 (keycode current)).
  { rewrite diff_split, in_app_iff, release_in_key_slots by assumption.
    split; [ intros [H | H]; [ destruct (Hmod _ H) | exact H ] | intros H; right; exact H ]. }
  assert (Hpre : In (mk_event 0 true) (diff previous current) <->
                 In 0 (keycode current) /\ ~ In 0 (keycode previous)).
  { rewrite diff_split, in_app_iff, press_in_key_slots by assumption.
    split; [ intros [H | H]; [ destruct (Hmod _ H) | exact H ] | intros H; right; exact H ]. }
  split; [ exact Hrel | split; [ exact Hpre | split ] ].
  - intros Hp Hc [k [ | ]] He Hk; simpl in Hk; subst k.
    + apply Hpre in He. destruct He as [_ Hn]. exact (Hn Hp).
    + apply Hrel in He. destruct He as [_ Hn]. exact (Hn Hc).
  - intros m. apply diff_nil_same.
Qed.

Lemma zero_slot_events_witness :
  report_wf (rep 0 [4;0;0;0;0;0]) /\ report_wf (rep 0 [4;5;6;7;8;9]) /\
  (In (mk_event 0 false) (diff (rep 0 [4;0;0;0;0;0]) (rep 0 [4;5;6;7;8;9])) <->
     In 0 (keycode (rep 0 [4;0;0;0;0;0])) /\ ~ In 0 (keycode (rep 0 [4;5;6;7;8;9]))).
Proof.
  split; [ reflexivity | split; [ reflexivity | ] ].
  exact (proj1 (zero_slot_events (rep 0 [4;0;0;0;0;0]) (rep 0 [4;5;6;7;8;9])
                                 eq_refl eq_refl)).
Defined.

(* ================================================================== *)
(** * Properties of the packet check *)

(** Every report read out of a packet has its six slots. *)
Lemma report_of_wf (packet : list Z) : report_wf (report_of packet).
Proof. reflexivity. Qed.

(** The [u16] read is little-endian: low byte first. *)
Lemma u16_at_little_endian (buf : list Z) (off : nat) :
  0 <= byte_at buf off < 256 ->
  u16_at buf off = byte_at buf off + 256 * byte_at buf (S off).
Proof.
  intros Hlo. unfold u16_at.
  set (lo := byte_at buf off) in *. set (hi := byte_at buf (S off)).
  assert (Hdisj : Z.land lo (Z.shiftl hi 8) = 0).
  { apply Z.bits_inj'. intros n Hn. rewrite Z.land_spec, Z.bits_0.
    destruct (Z.lt_ge_cases n 8) as [Hs | Hs].
    - rewrite (Z.shiftl_spec_low hi 8 n Hs). apply andb_false_r.
    - rewrite (Z.bits_above_log2 lo n); [ reflexivity | lia | ].
      destruct (Z.eq_dec lo 0) as [-> | Hnz]; [ simpl; lia | ].
      apply Z.log2_lt_pow2; [ lia | ].
      apply Z.lt_le_trans with (2 ^ 8); [ lia | ].
      apply Z.pow_le_mono_r; lia. }
  rewrite <- (Z.lxor_lor _ _ Hdisj), <- (Z.add_nocarry_lxor _ _ Hdisj).
  rewrite Z.shiftl_mul_pow2 by lia. lia.
Qed.

Lemma packet_ok_iff (packet : list Z) :
  packet_ok packet = true <->
  packet_flags packet = PACKET_READ /\ packet_device packet = KBD_DEVICE /\
  msg_type packet = MSG_REPORT /\ msg_device packet = KBD_DEVICE /\
  msg_cmdlen packet = sizeof_report /\
  reportid (report_of packet) = KBD_REPORTID.
Proof.
  unfold packet_ok. rewrite !andb_true_iff, !Z.eqb_eq. tauto.
Qed.

Lemma check_claim_failed (claim : Z) (packet : list Z) (s : input_config) :
  claim < 0 -> apple_spi_kbd_check claim packet s = (claim, s).
Proof.
  intros H. unfold apple_spi_kbd_check.
  apply Z.ltb_lt in H. rewrite H. reflexivity.
Qed.

Lemma check_rejected (claim : Z) (packet : list Z) (s : input_config) :
  0 <= claim -> packet_ok packet = false ->
  apple_spi_kbd_check claim packet s = (0, s).
Proof.
  intros H Hp. unfold apple_spi_kbd_check.
  apply Z.ltb_ge in H. rewrite H, Hp. reflexivity.
Qed.

Lemma check_accepted (claim : Z) (packet : list Z) (s : input_config) :
  0 <= claim -> packet_ok packet = true ->
  apple_spi_kbd_check claim packet s =
  (1, {| dev_priv := {| old := report_of packet; new := report_of packet |};
         delivered := delivered s ++ diff (old (dev_priv s)) (report_of packet) |}).
Proof.
  intros H Hp. unfold apple_spi_kbd_check.
  apply Z.ltb_ge in H. rewrite H, Hp.
  unfold bind at 1 2 3. unfold dev_get_priv at 1, set_priv at 1.
  rewrite service_modifiers_emits. unfold bind at 1.
  rewrite key_loop_emits. unfold bind, dev_get_priv, set_priv, ret.
  cbn [dev_priv delivered old new].
  rewrite diff_unfold, <- app_assoc. reflexivity.
Qed.

(** What a call returns and leaves behind, by cases. *)
Lemma check_cases (claim : Z) (packet : list Z) (s : input_config) :
  (claim < 0 /\ apple_spi_kbd_check claim packet s = (claim, s)) \/
  (0 <= claim /\ packet_ok packet = false /\
   apple_spi_kbd_check claim packet s = (0, s)) \/
  (0 <= claim /\ packet_ok packet = true /\
   apple_spi_kbd_check claim packet s =
   (1, {| dev_priv := {| old := report_of packet; new := report_of packet |};
          delivered := delivered s ++ diff (old (dev_priv s)) (report_of packet) |})).
Proof.
  destruct (Z.lt_ge_cases claim 0) as [Hc | Hc].
  - left. split; [ exact Hc | apply check_claim_failed; exact Hc ].
  - right. destruct (packet_ok packet) eqn:Hp.
    + right. repeat split; [ exact Hc | apply check_accepted; assumption ].
    + left. repeat split; [ exact Hc | apply check_rejected; assumption ].
Qed.

(** C2: once the bus is claimed, the check returns 1 if and only if the
    packet's flags are 0x20, its device is 0x01, the embedded message has
    type 0x10, device 0x01 and cmdlen 10 (the size of a report), and the
    report id is 0x01; the accepted report is then the stored current
    report.  Whenever the call does not return 1 it leaves the stored
    reports and the delivered events exactly as they were; a packet whose
    flags differ from 0x20 is never accepted, whatever its other bytes. *)
Theorem check_accepts_iff (claim : Z) (packet : list Z) (s : input_config) :
  (fst (apple_spi_kbd_check claim packet s) = 1 <->
     0 <= claim /\
     packet_flags packet = 0x20 /\ packet_device packet = 0x01 /\
     msg_type packet = 0x10 /\ msg_device packet = 0x01 /\
     msg_cmdlen packet = 10 /\ reportid (report_of packet) = 0x01)
  /\ (fst (apple_spi_kbd_check claim packet s) = 1 ->
      new (dev_priv (snd (apple_spi_kbd_check claim packet s))) = report_of packet)
  /\ (fst (apple_spi_kbd_check claim packet s) <> 1 ->
      snd (apple_spi_kbd_check claim packet s) = s)
  /\ (packet_flags packet <> 0x20 ->
      fst (apple_spi_kbd_check claim packet s) <> 1 /\
      snd (apple_spi_kbd_check claim packet s) = s).
Proof.
  pose proof (packet_ok_iff packet) as Hok.
  unfold PACKET_READ, KBD_DEVICE, MSG_REPORT, sizeof_report, KBD_REPORTID in Hok.
  destruct (check_cases claim packet s)
    as [[Hc E] | [[Hc [Hp E]] | [Hc [Hp E]]]]; rewrite E; simpl.
  - repeat split; try (intros; lia).
  - assert (Hno : ~ (packet_flags packet = 32 /\ packet_device packet = 1 /\
                     msg_type packet = 16 /\ msg_device packet = 1 /\
                     msg_cmdlen packet = 10 /\ reportid (report_of packet) = 1)).
    { intros H. apply Hok in H. congruence. }
    repeat split; try (intros; lia); try discriminate.
    intros [_ H]. destruct (Hno H).
  - apply Hok in Hp.
    repeat split; try tauto; try (intros; lia).
Qed.

(** C10: whenever the check returns 1, the stored previous report and the
    stored current report both equal the report just accepted; polling the
    same packet again is accepted again and changes nothing: no event is
    delivered and both stored reports stay equal. *)
Theorem accepted_report_stored (claim : Z) (packet : list Z) (s : input_config)
    (Hacc : fst (apple_spi_kbd_check claim packet s) = 1) :
  let s' := snd (apple_spi_kbd_check claim packet s) in
  old (dev_priv s') = report_of packet /\
  new (dev_priv s') = report_of packet /\
  old (dev_priv s') = new (dev_priv s') /\
  forall claim', 0 <= claim' -> apple_spi_kbd_check claim' packet s' = (1, s').
Proof.
  destruct (check_cases claim packet s)
    as [[Hc E] | [[Hc [Hp E]] | [Hc [Hp E]]]]; rewrite E in *; simpl in *.
  - lia.
  - discriminate Hacc.
  - repeat split. intros claim' Hc'.
    rewrite check_accepted by assumption. simpl.
    rewrite diff_nil_same, app_nil_r. reflexivity.
Qed.

Lemma accepted_report_stored_witness :
  fst (apple_spi_kbd_check 0 sample_packet initial_config) = 1 /\
  old (dev_priv (snd (apple_spi_kbd_check 0 sample_packet initial_config))) =
    report_of sample_packet.
Proof.
  split; [ reflexivity | ].
  exact (proj1 (accepted_report_stored 0 sample_packet initial_config eq_refl)).
Defined.

(* ================================================================== *)
(** * Properties of the translator *)

Lemma truthy_lor (u v : Z) : truthy (Z.lor u v) = truthy u || truthy v.
Proof.
  unfold truthy.
  destruct (Z.eqb_spec (Z.lor u v) 0) as [E | E].
  - apply Z.lor_eq_0_iff in E. destruct E as [-> ->]. reflexivity.
  - destruct (Z.eqb_spec u 0) as [-> | _]; [ | reflexivity ].
    destruct (Z.eqb_spec v 0) as [-> | _]; [ | reflexivity ].
    destruct E. reflexivity.
Qed.

Lemma truthy_land_two_bits (m a b : Z) :
  0 <= a -> 0 <= b ->
  truthy (Z.land m (Z.lor (BIT a) (BIT b))) = Z.testbit m a || Z.testbit m b.
Proof.
  intros Ha Hb.
  rewrite Z.land_lor_distr_r, truthy_lor, !truthy_land_BIT by assumption.
  reflexivity.
Qed.

Lemma ctrl_held_bits (m : Z) : ctrl_held m = Z.testbit m 0 || Z.testbit m 4.
Proof. apply truthy_land_two_bits; lia. Qed.

Lemma shift_held_bits (m : Z) : shift_held m = Z.testbit m 1 || Z.testbit m 5.
Proof. apply truthy_land_two_bits; lia. Qed.



(** On the driver's plain table, translate(4) is 'a' only when the table is
    indexed by the keycode itself. *)
Lemma translate_base_forced (base : Z) :
  translate_from base 4 0 = Some (ch "a") -> base = 0.
Proof.
  unfold translate_from, xlate_entry.
  change (select_table 0) with hid_kbd_plain_xlate.
  change (ARRAY_SIZE hid_kbd_plain_xlate) with 57.
  destruct ((0 <=? 4 - base) && (4 - base <? 57)) eqn:R; [ | discriminate ].
  apply andb_true_iff in R. destruct R as [R1 R2].
  apply Z.leb_le in R1. apply Z.ltb_lt in R2.
  remember (Z.to_nat (4 - base)) as n eqn:Hn.
  assert (Hlt : (n < 57)%nat) by lia.
  intros H.
  assert (n = 4%nat); [ | lia ].
  clear Hn R1 R2.
  do 57 (destruct n as [ | n ]; [ first [ reflexivity | discriminate H ] | ]).
  lia.
Qed.

(** C8: the table is selected by fixed priority: the ctrl table when a ctrl
    bit (bit 0 or bit 4) is set, even if a shift bit is set too; otherwise
    the shift table when a shift bit (bit 1 or bit 5) is set; otherwise the
    plain table.  Keycode 4 translates to 0x01 with left-ctrl held, also
    with left-shift held as well, to 'A' with left-shift held and to 'a'
    with no modifier held. *)
Theorem translate_priority (key m : Z) :
  translate key m =
    xlate_entry
      (if Z.testbit m 0 || Z.testbit m 4 then hid_kbd_ctrl_xlate
       else if Z.testbit m 1 || Z.testbit m 5 then hid_kbd_shift_xlate
       else hid_kbd_plain_xlate) key
  /\ translate 4 HID_MOD_LEFTCTRL = Some 0x01
  /\ translate 4 (Z.lor HID_MOD_LEFTCTRL HID_MOD_LEFTSHIFT) = Some 0x01
  /\ translate 4 HID_MOD_LEFTSHIFT = Some (ch "A")
  /\ translate 4 0 = Some (ch "a").
Proof.
  split; [ | repeat split ].
  unfold translate, translate_from, select_table.
  rewrite ctrl_held_bits, shift_held_bits, Z.sub_0_r. reflexivity.
Qed.








(* ================================================================== *)
(** * Properties of the UTF-8 to code page 437 conversion *)

Lemma zrange_In (x : Z) : forall n lo, lo <= x < lo + Z.of_nat n -> In x (zrange lo n).
Proof.
  induction n as [ | n IH ]; intros lo H; [ lia | ].
  simpl. destruct (Z.eq_dec lo x) as [E | E]; [ left; exact E | right ].
  apply IH. lia.
Qed.

Lemma In_zrange (x : Z) : forall n lo, In x (zrange lo n) -> lo <= x < lo + Z.of_nat n.
Proof.
  induction n as [ | n IH ]; intros lo H; [ destruct H | ].
  simpl in H. destruct H as [<- | H]; [ lia | ].
  apply IH in H. lia.
Qed.

Lemma forall_zrange (P : Z -> bool) (lo : Z) (n : nat) :
  forallb P (zrange lo n) = true ->
  forall x, lo <= x < lo + Z.of_nat n -> P x = true.
Proof.
  intros H x Hx. rewrite forallb_forall in H. apply H, zrange_In, Hx.
Qed.

Lemma forall2_zrange (P : Z -> Z -> bool) (lo1 lo2 : Z) (n1 n2 : nat) :
  forallb (fun x => forallb (P x) (zrange lo2 n2)) (zrange lo1 n1) = true ->
  forall x y, lo1 <= x < lo1 + Z.of_nat n1 -> lo2 <= y < lo2 + Z.of_nat n2 ->
    P x y = true.
Proof.
  intros H x y Hx Hy.
  apply (forall_zrange (P x) lo2 n2); [ | exact Hy ].
  apply (forall_zrange (fun x => forallb (P x) (zrange lo2 n2)) lo1 n1 H x Hx).
Qed.

Lemma range_cases (P : Z -> Prop) (lo : Z) (n : nat) :
  (forall k, (k < n)%nat -> P (lo + Z.of_nat k)) ->
  forall x, lo <= x < lo + Z.of_nat n -> P x.
Proof.
  intros H x Hx. replace x with (lo + Z.of_nat (Z.to_nat (x - lo))) by lia.
  apply H. lia.
Qed.

Lemma opt_eqb_eq (a b : option (Z * Z)) : opt_eqb a b = true -> a = b.
Proof.
  destruct a as [[x y] | ], b as [[x' y'] | ]; simpl; try discriminate; try reflexivity.
  intros H. apply andb_true_iff in H. destruct H as [H1 H2].
  apply Z.eqb_eq in H1, H2. subst. reflexivity.
Qed.

Lemma convert_uc16_byte (code : Z) :
  0 <= code < 65536 -> is_byte_result (convert_uc16_to_cp437 code) = true.
Proof.
  apply (forall_zrange (fun c => is_byte_result (convert_uc16_to_cp437 c)) 0 (Z.to_nat 65536)).
  vm_compute. reflexivity.
Qed.

Lemma convert_uc16_some (code : Z) :
  0 <= code < 65536 ->
  exists r, convert_uc16_to_cp437 code = Some r /\ 0 <= r < 256.
Proof.
  intros H. pose proof (convert_uc16_byte code H) as B.
  destruct (convert_uc16_to_cp437 code) as [r | ]; [ | discriminate B ].
  exists r. split; [ reflexivity | ].
  simpl in B. apply andb_true_iff in B. destruct B as [B1 B2].
  apply Z.leb_le in B1. apply Z.ltb_lt in B2. lia.
Qed.

Lemma lead2_step (b1 esc : Z) :
  0xc0 <= b1 < 0xe0 ->
  convert_utf8_to_cp437 b1 esc = Some (0, final_state (b1 - 0xc0)).
Proof.
  revert b1. apply (range_cases _ 0xc0 32). intros k Hk.
  do 32 (destruct k as [ | k ]; [ reflexivity | ]). lia.
Qed.

Lemma lead3_step (b1 esc : Z) :
  0xe0 <= b1 < 0xf0 -> convert_utf8_to_cp437 b1 esc = Some (0, lead3_state b1).
Proof.
  revert b1. apply (range_cases _ 0xe0 16). intros k Hk.
  do 16 (destruct k as [ | k ]; [ reflexivity | ]). lia.
Qed.

Lemma lead4_step (b1 esc : Z) :
  0xf0 <= b1 < 0x100 -> convert_utf8_to_cp437 b1 esc = Some (0, lead4_state b1).
Proof.
  revert b1. apply (range_cases _ 0xf0 16). intros k Hk.
  do 16 (destruct k as [ | k ]; [ reflexivity | ]). lia.
Qed.

Lemma final_step (v b : Z) :
  0 <= v < 1024 -> 0x80 <= b < 0xc0 ->
  convert_utf8_to_cp437 b (final_state v) = glyph_done (v * 64 + (b - 0x80)).
Proof.
  intros Hv Hb. apply opt_eqb_eq.
  apply (forall2_zrange (fun v b =>
     opt_eqb (convert_utf8_to_cp437 b (final_state v))
             (glyph_done (v * 64 + (b - 0x80)))) 0 0x80 1024 64); [ | lia | lia ].
  vm_compute. reflexivity.
Qed.

Lemma mid3_step (b1 b2 : Z) :
  0xe0 <= b1 < 0xf0 -> 0x80 <= b2 < 0xc0 ->
  convert_utf8_to_cp437 b2 (lead3_state b1) =
  Some (0, final_state ((b1 - 0xe0) * 64 + (b2 - 0x80))).
Proof.
  intros H1 H2. apply opt_eqb_eq.
  apply (forall2_zrange (fun b1 b2 =>
     opt_eqb (convert_utf8_to_cp437 b2 (lead3_state b1))
             (Some (0, final_state ((b1 - 0xe0) * 64 + (b2 - 0x80)))))
     0xe0 0x80 16 64); [ | lia | lia ].
  vm_compute. reflexivity.
Qed.

Lemma lead4_cont_step (b1 b2 : Z) :
  0xf0 <= b1 < 0x100 -> 0x80 <= b2 < 0xc0 ->
  convert_utf8_to_cp437 b2 (lead4_state b1) = Some (0, mid4_state b2).
Proof.
  intros H1 H2. apply opt_eqb_eq.
  apply (forall2_zrange (fun b1 b2 =>
     opt_eqb (convert_utf8_to_cp437 b2 (lead4_state b1)) (Some (0, mid4_state b2)))
     0xf0 0x80 16 64); [ | lia | lia ].
  vm_compute. reflexivity.
Qed.

Lemma mid4_step (b2 b3 : Z) :
  0x80 <= b2 < 0xc0 -> 0x80 <= b3 < 0xc0 ->
  convert_utf8_to_cp437 b3 (mid4_state b2) =
  Some (0, final_state (((b2 - 0x80) mod 16) * 64 + (b3 - 0x80))).
Proof.
  intros H2 H3. apply opt_eqb_eq.
  apply (forall2_zrange (fun b2 b3 =>
     opt_eqb (convert_utf8_to_cp437 b3 (mid4_state b2))
             (Some (0, final_state (((b2 - 0x80) mod 16) * 64 + (b3 - 0x80)))))
     0x80 0x80 64 64); [ | lia | lia ].
  vm_compute. reflexivity.
Qed.

Lemma feed_cons (c : Z) (rest : list Z) (esc r e : Z) :
  convert_utf8_to_cp437 c esc = Some (r, e) ->
  feed (c :: rest) esc =
    match feed rest e with
    | Some (out, e') => Some (r :: out, e')
    | None => None
    end.
Proof. intros H. simpl. rewrite H. reflexivity. Qed.

Lemma feed_last (c esc code g : Z) :
  convert_utf8_to_cp437 c esc = glyph_done code ->
  convert_uc16_to_cp437 code = Some g ->
  feed [c] esc = Some ([g], 0).
Proof.
  intros H Hg. unfold glyph_done in H. rewrite Hg in H.
  rewrite (feed_cons _ _ _ _ _ H). reflexivity.
Qed.

Lemma two_byte_feed (b1 b2 esc0 : Z) :
  0xc0 <= b1 < 0xe0 -> 0x80 <= b2 < 0xc0 ->
  exists g,
    convert_uc16_to_cp437 ((b1 - 0xc0) * 64 + (b2 - 0x80)) = Some g /\
    feed [b1; b2] esc0 = Some ([0; g], 0).
Proof.
  intros H1 H2.
  destruct (convert_uc16_some ((b1 - 0xc0) * 64 + (b2 - 0x80))) as [g [Hg _]];
    [ lia | ].
  exists g. split; [ exact Hg | ].
  rewrite (feed_cons _ _ _ _ _ (lead2_step b1 esc0 H1)).
  rewrite (feed_last b2 _ _ g (final_step (b1 - 0xc0) b2 ltac:(lia) H2) Hg). reflexivity.
Qed.

Lemma three_byte_feed (b1 b2 b3 esc0 : Z) :
  0xe0 <= b1 < 0xf0 -> 0x80 <= b2 < 0xc0 -> 0x80 <= b3 < 0xc0 ->
  exists g,
    convert_uc16_to_cp437
      ((b1 - 0xe0) * 4096 + (b2 - 0x80) * 64 + (b3 - 0x80)) = Some g /\
    feed [b1; b2; b3] esc0 = Some ([0; 0; g], 0).
Proof.
  intros H1 H2 H3.
  destruct (convert_uc16_some
              ((b1 - 0xe0) * 4096 + (b2 - 0x80) * 64 + (b3 - 0x80)))
    as [g [Hg _]]; [ lia | ].
  exists g. split; [ exact Hg | ].
  rewrite (feed_cons _ _ _ _ _ (lead3_step b1 esc0 H1)).
  rewrite (feed_cons _ _ _ _ _ (mid3_step b1 b2 H1 H2)).
  assert (F := final_step ((b1 - 0xe0) * 64 + (b2 - 0x80)) b3 ltac:(lia) H3).
  replace (((b1 - 0xe0) * 64 + (b2 - 0x80)) * 64 + (b3 - 0x80))
    with ((b1 - 0xe0) * 4096 + (b2 - 0x80) * 64 + (b3 - 0x80)) in F by lia.
  rewrite (feed_last b3 _ _ g F Hg). reflexivity.
Qed.

Lemma low16_of_four (k x y z : Z) :
  0 <= x < 64 -> 0 <= y < 64 -> 0 <= z < 64 ->
  (k * 262144 + x * 4096 + y * 64 + z) mod 65536 =
  ((x mod 16) * 64 + y) * 64 + z.
Proof.
  intros Hx Hy Hz.
  pose proof (Z.div_mod x 16 ltac:(lia)) as D.
  pose proof (Z.mod_pos_bound x 16 ltac:(lia)) as B.
  replace (k * 262144 + x * 4096 + y * 64 + z)
    with ((((x mod 16) * 64 + y) * 64 + z) + (k * 4 + x / 16) * 65536) by lia.
  rewrite Z.mod_add by lia. apply Z.mod_small. lia.
Qed.

Lemma cont_step (c esc : Z) :
  0x80 <= c < 0xc0 -> convert_utf8_to_cp437 c esc = continuation c esc.
Proof.
  revert c. apply (range_cases _ 0x80 64). intros k Hk.
  do 64 (destruct k as [ | k ]; [ reflexivity | ]). lia.
Qed.

Lemma cont_low6 (c : Z) : 0x80 <= c < 0xc0 -> Z.land c 0x3f = c - 0x80.
Proof.
  intros H. apply Z.eqb_eq.
  apply (forall_zrange (fun c => Z.land c 0x3f =? c - 0x80) 0x80 64); [ reflexivity | lia ].
Qed.

Lemma shiftr24_small (u : Z) : 0 <= u < 2 ^ 24 -> Z.shiftr u 24 = 0.
Proof. intros H. rewrite Z.shiftr_div_pow2 by lia. apply Z.div_small. exact H. Qed.

Lemma pending_pack (s u w : Z) :
  0 <= s -> 0 <= u < 2 ^ 24 -> 0 <= w < 2 ^ 24 ->
  0 <= Z.lor (Z.lor (Z.shiftl s 24) u) w /\
  pending (Z.lor (Z.lor (Z.shiftl s 24) u) w) = s.
Proof.
  intros Hs Hu Hw. split.
  - apply Z.lor_nonneg. split; [ apply Z.lor_nonneg; split | ]; try lia.
    apply Z.shiftl_nonneg. exact Hs.
  - unfold pending. rewrite !Z.shiftr_lor, Z.shiftr_shiftl_l by lia.
    rewrite (shiftr24_small u Hu), (shiftr24_small w Hw).
    rewrite Z.sub_diag, Z.shiftl_0_r, !Z.lor_0_r. reflexivity.
Qed.

Lemma u16_range (z : Z) : 0 <= u16 z < 65536.
Proof. unfold u16. apply Z.mod_pos_bound. lia. Qed.

Lemma lead_step_ok (c esc : Z) :
  0xc0 <= c < 0x100 ->
  exists e, convert_utf8_to_cp437 c esc = Some (0, e) /\
            0 <= e /\ 1 <= pending e <= 3.
Proof.
  intros H.
  assert (L : lead_ok c = true)
    by (apply (forall_zrange lead_ok 0xc0 64); [ reflexivity | lia ]).
  unfold lead_ok in L.
  assert (E : convert_utf8_to_cp437 c esc = convert_utf8_to_cp437 c 0).
  { destruct (Z.lt_ge_cases c 0xe0); [ rewrite !lead2_step by lia; reflexivity | ].
    destruct (Z.lt_ge_cases c 0xf0); [ rewrite !lead3_step by lia; reflexivity | ].
    rewrite !lead4_step by lia; reflexivity. }
  rewrite E. destruct (convert_utf8_to_cp437 c 0) as [[r e] | ]; [ | discriminate L ].
  destruct r; try discriminate L.
  exists e. split; [ reflexivity | ].
  apply andb_true_iff in L. destruct L as [L L3].
  apply andb_true_iff in L. destruct L as [L1 L2].
  apply Z.leb_le in L1, L2, L3. lia.
Qed.

Lemma some_pair_inv (a b r e : Z) : Some (a, b) = Some (r, e) -> r = a /\ e = b.
Proof. intros H. split; congruence. Qed.

Lemma source_left_inverse (c r : Z) :
  0xa0 <= c < 65536 -> convert_uc16_to_cp437 c = Some r ->
  r <> 0 -> r <> 7 -> source_of r = c.
Proof.
  intros H E H0 H7.
  assert (C : match convert_uc16_to_cp437 c with
              | Some r => (r =? 0) || (r =? 7) || (source_of r =? c)
              | None => false
              end = true).
  { apply (forall_zrange (fun c =>
      match convert_uc16_to_cp437 c with
      | Some r => (r =? 0) || (r =? 7) || (source_of r =? c)
      | None => false
      end) 0xa0 (Z.to_nat (65536 - 0xa0))); [ vm_compute; reflexivity | lia ]. }
  rewrite E in C.
  apply orb_true_iff in C. destruct C as [C | C].
  - apply orb_true_iff in C. destruct C as [C | C]; apply Z.eqb_eq in C; contradiction.
  - apply Z.eqb_eq in C. exact C.
Qed.

Lemma encode_two (cp : Z) :
  0x80 <= cp < 0x800 ->
  utf8_encode cp = [0xc0 + cp / 64; 0x80 + cp mod 64] /\
  0xc0 <= 0xc0 + cp / 64 < 0xe0 /\ 0x80 <= 0x80 + cp mod 64 < 0xc0 /\
  (0xc0 + cp / 64 - 0xc0) * 64 + (0x80 + cp mod 64 - 0x80) = cp.
Proof.
  intros H. unfold utf8_encode.
  replace (cp <? 0x80) with false by (symmetry; apply Z.ltb_ge; lia).
  replace (cp <? 0x800) with true by (symmetry; apply Z.ltb_lt; lia).
  pose proof (Z.div_mod cp 64 ltac:(lia)) as D.
  pose proof (Z.mod_pos_bound cp 64 ltac:(lia)) as B.
  repeat split; lia.
Qed.

Lemma encode_three (cp : Z) :
  0x800 <= cp < 0x10000 ->
  utf8_encode cp =
    [0xe0 + cp / 4096; 0x80 + (cp / 64) mod 64; 0x80 + cp mod 64] /\
  0xe0 <= 0xe0 + cp / 4096 < 0xf0 /\
  0x80 <= 0x80 + (cp / 64) mod 64 < 0xc0 /\
  0x80 <= 0x80 + cp mod 64 < 0xc0 /\
  (0xe0 + cp / 4096 - 0xe0) * 4096 + (0x80 + (cp / 64) mod 64 - 0x80) * 64 +
  (0x80 + cp mod 64 - 0x80) = cp.
Proof.
  intros H. unfold utf8_encode.
  replace (cp <? 0x80) with false by (symmetry; apply Z.ltb_ge; lia).
  replace (cp <? 0x800) with false by (symmetry; apply Z.ltb_ge; lia).
  replace (cp <? 0x10000) with true by (symmetry; apply Z.ltb_lt; lia).
  replace (cp / 4096) with (cp / 64 / 64)
    by (rewrite Z.div_div by lia; reflexivity).
  pose proof (Z.div_mod cp 64 ltac:(lia)) as D.
  pose proof (Z.mod_pos_bound cp 64 ltac:(lia)) as B.
  pose proof (Z.div_mod (cp / 64) 64 ltac:(lia)) as D'.
  pose proof (Z.mod_pos_bound (cp / 64) 64 ltac:(lia)) as B'.
  repeat split; lia.
Qed.

(* ------------------------------------------------------------------ *)
(** ** The conversion of a code point *)

(** X1: for every 16-bit code, [convert_uc16_to_cp437] reads its two
    tables inside their bounds only and returns a byte. *)
Theorem convert_uc16_in_bounds (code : Z) (Hcode : 0 <= code < 65536) :
  exists r, convert_uc16_to_cp437 code = Some r /\ 0 <= r < 256.
Proof.
  rename Hcode into H. pose proof (convert_uc16_byte code H) as B.
  destruct (convert_uc16_to_cp437 code) as [r | ]; [ | discriminate B ].
  exists r. split; [ reflexivity | ].
  simpl in B. apply andb_true_iff in B. destruct B as [B1 B2].
  apply Z.leb_le in B1. apply Z.ltb_lt in B2. lia.
Qed.

Lemma convert_uc16_in_bounds_witness :
  0 <= 0xff < 65536 /\
  exists r, convert_uc16_to_cp437 0xff = Some r /\ 0 <= r < 256.
Proof. split; [ lia | apply (convert_uc16_in_bounds 0xff); lia ]. Defined.

(** X2: the conversion reaches every code page 437 character: each byte b
    is the image of the code point [source_of b], and for the graphic
    characters 1..31 and 128..255 that code point is a Unicode character at
    or above U+00A0. *)
Theorem cp437_complete (b : Z) (Hb : 0 <= b < 256) :
  convert_uc16_to_cp437 (source_of b) = Some b /\
  (1 <= b < 32 \/ 128 <= b -> 0xa0 <= source_of b < 65536).
Proof.
  rename Hb into H.
  assert (C : (match convert_uc16_to_cp437 (source_of b) with
               | Some r => r =? b
               | None => false
               end) &&
              (if ((1 <=? b) && (b <? 32)) || (128 <=? b)
               then (0xa0 <=? source_of b) && (source_of b <? 65536)
               else true) = true).
  { apply (forall_zrange (fun b =>
      (match convert_uc16_to_cp437 (source_of b) with
       | Some r => r =? b
       | None => false
       end) &&
      (if ((1 <=? b) && (b <? 32)) || (128 <=? b)
       then (0xa0 <=? source_of b) && (source_of b <? 65536)
       else true)) 0 256); [ vm_compute; reflexivity | lia ]. }
  apply andb_true_iff in C. destruct C as [C1 C2]. split.
  - destruct (convert_uc16_to_cp437 (source_of b)) as [r | ]; [ | discriminate C1 ].
    apply Z.eqb_eq in C1. subst r. reflexivity.
  - intros Hb.
    replace (((1 <=? b) && (b <? 32)) || (128 <=? b)) with true in C2.
    + apply andb_true_iff in C2. destruct C2 as [L U].
      apply Z.leb_le in L. apply Z.ltb_lt in U. lia.
    + symmetry. apply orb_true_iff. destruct Hb as [Hb | Hb].
      * left. apply andb_true_iff. split; [ apply Z.leb_le | apply Z.ltb_lt ]; lia.
      * right. apply Z.leb_le. lia.
Qed.

Lemma cp437_complete_witness :
  0 <= 219 < 256 /\ convert_uc16_to_cp437 (source_of 219) = Some 219.
Proof. split; [ lia | apply (cp437_complete 219); lia ]. Defined.

(** X3: no code page 437 character is assigned to two code points: two
    codes at or above U+00A0 that convert to the same character, other than
    the fallbacks 0 and 7, are equal. *)
Theorem cp437_no_shared_glyph (c1 c2 r : Z)
    (H1 : 0xa0 <= c1 < 65536) (H2 : 0xa0 <= c2 < 65536)
    (E1 : convert_uc16_to_cp437 c1 = Some r)
    (E2 : convert_uc16_to_cp437 c2 = Some r)
    (Hr0 : r <> 0) (Hr7 : r <> 7) :
  c1 = c2.
Proof.
  rewrite <- (source_left_inverse c1 r H1 E1 Hr0 Hr7).
  apply (source_left_inverse c2 r H2 E2 Hr0 Hr7).
Qed.

Lemma cp437_no_shared_glyph_witness :
  0xa0 <= 0x2588 < 65536 /\ convert_uc16_to_cp437 0x2588 = Some 219 /\
  219 <> 0 /\ 219 <> 7 /\ 0x2588 = 0x2588.
Proof.
  split; [ lia | split; [ reflexivity | split; [ lia | split; [ lia | ] ] ] ].
  apply (cp437_no_shared_glyph 0x2588 0x2588 219); try lia; reflexivity.
Defined.

(* ------------------------------------------------------------------ *)
(** ** The decoder *)

(** X4: from any state, a two-byte sequence (lead byte 0xC0..0xDF, one
    continuation byte 0x80..0xBF) returns 0 and then the character of the
    code point it encodes, and leaves nothing pending. *)
Theorem utf8_two_byte_sequence (b1 b2 esc0 : Z)
    (Hlead : 0xc0 <= b1 < 0xe0) (Hcont : 0x80 <= b2 < 0xc0) :
  exists g,
    convert_uc16_to_cp437 ((b1 - 0xc0) * 64 + (b2 - 0x80)) = Some g /\
    feed [b1; b2] esc0 = Some ([0; g], 0).
Proof.
  rename Hlead into H1. rename Hcont into H2.
  destruct (convert_uc16_some ((b1 - 0xc0) * 64 + (b2 - 0x80))) as [g [Hg _]];
    [ lia | ].
  exists g. split; [ exact Hg | ].
  rewrite (feed_cons _ _ _ _ _ (lead2_step b1 esc0 H1)).
  rewrite (feed_last b2 _ _ g (final_step (b1 - 0xc0) b2 ltac:(lia) H2) Hg). reflexivity.
Qed.

Lemma utf8_two_byte_sequence_witness :
  0xc0 <= 0xc3 < 0xe0 /\ 0x80 <= 0xa9 < 0xc0 /\
  exists g,
    convert_uc16_to_cp437 ((0xc3 - 0xc0) * 64 + (0xa9 - 0x80)) = Some g /\
    feed [0xc3; 0xa9] 0 = Some ([0; g], 0).
Proof.
  split; [ lia | split; [ lia | ] ].
  apply (utf8_two_byte_sequence 0xc3 0xa9 0); lia.
Defined.

(** X5: from any state, a three-byte sequence (lead byte 0xE0..0xEF, two
    continuation bytes) returns 0, 0 and then the character of the code
    point it encodes, and leaves nothing pending. *)
Theorem utf8_three_byte_sequence (b1 b2 b3 esc0 : Z)
    (Hlead : 0xe0 <= b1 < 0xf0)
    (Hc2 : 0x80 <= b2 < 0xc0) (Hc3 : 0x80 <= b3 < 0xc0) :
  exists g,
    convert_uc16_to_cp437
      ((b1 - 0xe0) * 4096 + (b2 - 0x80) * 64 + (b3 - 0x80)) = Some g /\
    feed [b1; b2; b3] esc0 = Some ([0; 0; g], 0).
Proof.
  rename Hlead into H1. rename Hc2 into H2. rename Hc3 into H3.
  destruct (convert_uc16_some
              ((b1 - 0xe0) * 4096 + (b2 - 0x80) * 64 + (b3 - 0x80)))
    as [g [Hg _]]; [ lia | ].
  exists g. split; [ exact Hg | ].
  rewrite (feed_cons _ _ _ _ _ (lead3_step b1 esc0 H1)).
  rewrite (feed_cons _ _ _ _ _ (mid3_step b1 b2 H1 H2)).
  assert (F := final_step ((b1 - 0xe0) * 64 + (b2 - 0x80)) b3 ltac:(lia) H3).
  replace (((b1 - 0xe0) * 64 + (b2 - 0x80)) * 64 + (b3 - 0x80))
    with ((b1 - 0xe0) * 4096 + (b2 - 0x80) * 64 + (b3 - 0x80)) in F by lia.
  rewrite (feed_last b3 _ _ g F Hg). reflexivity.
Qed.

Lemma utf8_three_byte_sequence_witness :
  0xe0 <= 0xe2 < 0xf0 /\ 0x80 <= 0x96 < 0xc0 /\ 0x80 <= 0x88 < 0xc0 /\
  exists g,
    convert_uc16_to_cp437
      ((0xe2 - 0xe0) * 4096 + (0x96 - 0x80) * 64 + (0x88 - 0x80)) = Some g /\
    feed [0xe2; 0x96; 0x88] 0 = Some ([0; 0; g], 0).
Proof.
  split; [ lia | split; [ lia | split; [ lia | ] ] ].
  apply (utf8_three_byte_sequence 0xe2 0x96 0x88 0); lia.
Defined.

(** X6: a four-byte sequence (lead byte 0xF0..0xF7, three continuation
    bytes) returns 0, 0, 0 and then the character of the low 16 bits of the
    code point it encodes: the accumulator is a [uint16_t], so the bits
    above are dropped. *)
Theorem utf8_four_byte_sequence (b1 b2 b3 b4 esc0 : Z)
    (Hlead : 0xf0 <= b1 < 0xf8)
    (Hc2 : 0x80 <= b2 < 0xc0) (Hc3 : 0x80 <= b3 < 0xc0)
    (Hc4 : 0x80 <= b4 < 0xc0) :
  exists g,
    convert_uc16_to_cp437
      (((b1 - 0xf0) * 262144 + (b2 - 0x80) * 4096 + (b3 - 0x80) * 64 + (b4 - 0x80))
       mod 65536) = Some g /\
    feed [b1; b2; b3; b4] esc0 = Some ([0; 0; 0; g], 0).
Proof.
  rename Hlead into H1. rename Hc2 into H2. rename Hc3 into H3. rename Hc4 into H4.
  rewrite low16_of_four by lia.
  pose proof (Z.mod_pos_bound (b2 - 0x80) 16 ltac:(lia)) as B.
  destruct (convert_uc16_some
              ((((b2 - 0x80) mod 16) * 64 + (b3 - 0x80)) * 64 + (b4 - 0x80)))
    as [g [Hg _]]; [ lia | ].
  exists g. split; [ exact Hg | ].
  rewrite (feed_cons _ _ _ _ _ (lead4_step b1 esc0 ltac:(lia))).
  rewrite (feed_cons _ _ _ _ _ (lead4_cont_step b1 b2 ltac:(lia) H2)).
  rewrite (feed_cons _ _ _ _ _ (mid4_step b2 b3 H2 H3)).
  rewrite (feed_last b4 _ _ g
    (final_step (((b2 - 0x80) mod 16) * 64 + (b3 - 0x80)) b4 ltac:(lia) H4) Hg).
  reflexivity.
Qed.

Lemma utf8_four_byte_sequence_witness :
  0xf0 <= 0xf0 < 0xf8 /\ 0x80 <= 0x92 < 0xc0 /\ 0x80 <= 0x98 < 0xc0 /\
  0x80 <= 0xba < 0xc0 /\
  exists g,
    convert_uc16_to_cp437
      (((0xf0 - 0xf0) * 262144 + (0x92 - 0x80) * 4096 + (0x98 - 0x80) * 64 +
        (0xba - 0x80)) mod 65536) = Some g /\
    feed [0xf0; 0x92; 0x98; 0xba] 0 = Some ([0; 0; 0; g], 0).
Proof.
  split; [ lia | split; [ lia | split; [ lia | split; [ lia | ] ] ] ].
  apply (utf8_four_byte_sequence 0xf0 0x92 0x98 0xba 0); lia.
Defined.

(** X7: for a byte and a state with at most three bytes pending, the call
    is undefined in C exactly when the byte is a continuation byte and
    nothing is pending (the shift count is then negative).  Otherwise it
    returns a byte and a state with at most three bytes pending, and a
    continuation byte lowers the pending count by one. *)
Theorem utf8_state_step (c esc : Z)
    (Hc : 0 <= c < 256) (Hesc : 0 <= esc) (Hpend : pending esc <= 3) :
  (convert_utf8_to_cp437 c esc = None <-> 0x80 <= c < 0xc0 /\ pending esc = 0) /\
  (forall r esc', convert_utf8_to_cp437 c esc = Some (r, esc') ->
     0 <= r < 256 /\ 0 <= esc' /\ pending esc' <= 3 /\
     (0x80 <= c < 0xc0 -> pending esc' = pending esc - 1)).
Proof.
  rename Hesc into He. rename Hpend into Hp.
  assert (Hp0 : 0 <= pending esc) by (apply Z.shiftr_nonneg; exact He).
  destruct (Z.lt_ge_cases c 127) as [Hlo | Hlo].
  { assert (E : convert_utf8_to_cp437 c esc = Some (c, esc)).
    { unfold convert_utf8_to_cp437. apply Z.ltb_lt in Hlo. rewrite Hlo. reflexivity. }
    rewrite E. split.
    - split; [ discriminate | intros [H _]; lia ].
    - intros r esc' H. destruct (some_pair_inv _ _ _ _ H) as [-> ->]. repeat split; try lia. }
  destruct (Z.eq_dec c 127) as [-> | Hne].
  { split.
    - split; [ discriminate | intros [H _]; lia ].
    - intros r esc' H. destruct (some_pair_inv _ _ _ _ H) as [-> ->]. repeat split; try lia. }
  destruct (Z.lt_ge_cases c 0xc0) as [Hcont | Hlead].
  2:{ destruct (lead_step_ok c esc ltac:(lia)) as [e [E [He0 Hpe]]].
      rewrite E. split.
      - split; [ discriminate | intros [H _]; lia ].
      - intros r esc' H. destruct (some_pair_inv _ _ _ _ H) as [-> ->]. repeat split; try lia. }
  assert (Hr : 0x80 <= c < 0xc0) by lia.
  rewrite (cont_step c esc Hr). unfold continuation.
  fold (pending esc). rewrite (cont_low6 c Hr).
  pose proof (u16_range (Z.land esc 0xffffff)) as Hu.
  assert (Hcases : pending esc = 0 \/ pending esc = 1 \/
                   pending esc = 2 \/ pending esc = 3) by lia.
  destruct Hcases as [P | [P | [P | P]]]; rewrite P.
  - split; [ split; [ intros _; split; [ lia | reflexivity ] | reflexivity ] | ].
    intros r esc' H. discriminate H.
  - change (1 - 1 =? 0) with true. cbv iota.
    destruct (convert_uc16_some (u16 (Z.lor (u16 (Z.land esc 0xffffff)) (c - 0x80))))
      as [g [Hg Hgb]]; [ apply u16_range | ].
    rewrite Hg. split.
    + split; [ discriminate | intros [_ H]; lia ].
    + intros r esc' H. destruct (some_pair_inv _ _ _ _ H) as [-> ->].
      assert (P0 : pending 0 = 0) by reflexivity.
      rewrite P0. repeat split; lia.
  - change (2 - 1 =? 0) with false. cbv iota.
    assert (Hd : shifts_defined (2 - 1) c = true).
    { unfold shifts_defined. rewrite (cont_low6 c Hr).
      change ((2 - 1) * 6) with 6. rewrite Z.shiftl_mul_pow2 by lia.
      change ((1 <=? 2 - 1) && (2 - 1 <=? 127) && (6 <? 32)) with true.
      apply Z.ltb_lt. lia. }
    rewrite Hd.
    destruct (pending_pack (2 - 1) (u16 (Z.land esc 0xffffff))
                (Z.shiftl (c - 0x80) ((2 - 1) * 6))) as [N Q]; try lia.
    { change ((2 - 1) * 6) with 6. rewrite Z.shiftl_mul_pow2 by lia. lia. }
    split.
    + split; [ discriminate | intros [_ H]; lia ].
    + intros r esc' H. destruct (some_pair_inv _ _ _ _ H) as [-> ->]. rewrite Q. repeat split; try lia.
  - change (3 - 1 =? 0) with false. cbv iota.
    assert (Hd : shifts_defined (3 - 1) c = true).
    { unfold shifts_defined. rewrite (cont_low6 c Hr).
      change ((3 - 1) * 6) with 12. rewrite Z.shiftl_mul_pow2 by lia.
      change ((1 <=? 3 - 1) && (3 - 1 <=? 127) && (12 <? 32)) with true.
      apply Z.ltb_lt. lia. }
    rewrite Hd.
    destruct (pending_pack (3 - 1) (u16 (Z.land esc 0xffffff))
                (Z.shiftl (c - 0x80) ((3 - 1) * 6))) as [N Q]; try lia.
    { change ((3 - 1) * 6) with 12. rewrite Z.shiftl_mul_pow2 by lia. lia. }
    split.
    + split; [ discriminate | intros [_ H]; lia ].
    + intros r esc' H. destruct (some_pair_inv _ _ _ _ H) as [-> ->]. rewrite Q. repeat split; try lia.
Qed.

Lemma utf8_state_step_witness :
  0 <= 0x96 < 256 /\ 0 <= lead3_state 0xe2 /\ pending (lead3_state 0xe2) <= 3 /\
  (convert_utf8_to_cp437 0x96 (lead3_state 0xe2) = None <->
   0x80 <= 0x96 < 0xc0 /\ pending (lead3_state 0xe2) = 0).
Proof.
  assert (H1 : 0 <= 0x96 < 256) by lia.
  assert (H2 : 0 <= lead3_state 0xe2) by (vm_compute; discriminate).
  assert (H3 : pending (lead3_state 0xe2) <= 3) by (vm_compute; discriminate).
  split; [ exact H1 | split; [ exact H2 | split; [ exact H3 | ] ] ].
  exact (proj1 (utf8_state_step 0x96 (lead3_state 0xe2) H1 H2 H3)).
Defined.

(** X8: round trip with the UTF-8 encoding: for every code point from
    U+0080 to U+FFFF, feeding the bytes of its UTF-8 encoding to the decoder
    from any state returns 0 for every byte but the last, then the
    character [convert_uc16_to_cp437] gives for the code point, and leaves
    nothing pending. *)
Theorem utf8_round_trip (cp esc0 : Z) (Hcp : 0x80 <= cp < 0x10000) :
  exists g,
    convert_uc16_to_cp437 cp = Some g /\
    feed (utf8_encode cp) esc0 =
      Some (repeat 0 (length (utf8_encode cp) - 1) ++ [g], 0).
Proof.
  destruct (Z.lt_ge_cases cp 0x800) as [Hlt | Hge].
  - destruct (encode_two cp ltac:(lia)) as [E [R1 [R2 V]]].
    destruct (two_byte_feed _ _ esc0 R1 R2) as [g [Hg F]].
    rewrite V in Hg. exists g. split; [ exact Hg | ].
    rewrite E. exact F.
  - destruct (encode_three cp ltac:(lia)) as [E [R1 [R2 [R3 V]]]].
    destruct (three_byte_feed _ _ _ esc0 R1 R2 R3) as [g [Hg F]].
    rewrite V in Hg. exists g. split; [ exact Hg | ].
    rewrite E. exact F.
Qed.

Lemma utf8_round_trip_witness :
  0x80 <= 0x2588 < 0x10000 /\
  exists g,
    convert_uc16_to_cp437 0x2588 = Some g /\
    feed (utf8_encode 0x2588) 0 =
      Some (repeat 0 (length (utf8_encode 0x2588) - 1) ++ [g], 0).
Proof. split; [ lia | apply (utf8_round_trip 0x2588 0); lia ]. Defined.

(* ================================================================== *)
(** * Further properties of the keyboard driver *)

Lemma apply_event_other (k : Z) (held : list Z) (e : KeyEvent) :
  ev_keycode e <> k -> (In k (apply_event held e) <-> In k held).
Proof.
  intros Hne. unfold apply_event. destruct (ev_pressed e).
  - simpl. split; [ intros [H | H]; [ contradiction | exact H ] | intros H; right; exact H ].
  - split.
    + intros H. apply in_remove in H. apply H.
    + intros H. apply in_in_remove; [ congruence | exact H ].
Qed.

Lemma replay_untouched (k : Z) (events : list KeyEvent) :
  (forall e, In e events -> ev_keycode e <> k) ->
  forall held, In k (replay events held) <-> In k held.
Proof.
  induction events as [ | e t IH ]; intros H held; simpl; [ reflexivity | ].
  unfold replay in IH. rewrite IH by (intros e' He'; apply H; right; exact He').
  apply apply_event_other. apply H. left. reflexivity.
Qed.

Lemma touches_dec (k : Z) (events : list KeyEvent) :
  (exists e, In e events /\ ev_keycode e = k) \/
  (forall e, In e events -> ev_keycode e <> k).
Proof.
  destruct (existsb (fun e => ev_keycode e =? k) events) eqn:E.
  - left. apply existsb_exists in E. destruct E as [e [He Hk]].
    exists e. split; [ exact He | apply Z.eqb_eq; exact Hk ].
  - right. intros e He Hk.
    assert (T : existsb (fun e => ev_keycode e =? k) events = true).
    { apply existsb_exists. exists e. split; [ exact He | apply Z.eqb_eq; exact Hk ]. }
    congruence.
Qed.

(** When every event on key [k] has the same direction, the last word on
    [k] is that direction. *)
Lemma replay_one_direction (k : Z) (p : bool) (events : list KeyEvent) :
  (forall e, In e events -> ev_keycode e = k -> ev_pressed e = p) ->
  (exists e, In e events /\ ev_keycode e = k) ->
  forall held, In k (replay events held) <-> p = true.
Proof.
  induction events as [ | e t IH ]; intros Hdir [e0 [Hin Hk]] held;
    [ destruct Hin | ].
  simpl. destruct (touches_dec k t) as [Ht | Ht].
  - unfold replay in IH. apply IH; [ | exact Ht ].
    intros e' He'. apply Hdir. right. exact He'.
  - fold (replay t (apply_event held e)). rewrite (replay_untouched k t Ht).
    destruct Hin as [-> | Hin]; [ | destruct (Ht e0 Hin Hk) ].
    assert (Hp : ev_pressed e0 = p) by (apply Hdir; [ left; reflexivity | exact Hk ]).
    unfold apply_event. rewrite Hp, Hk. destruct p.
    + split; [ reflexivity | intros _; left; reflexivity ].
    + split; [ intros H; apply remove_In in H; destruct H | discriminate ].
Qed.


(** X9: replaying the key-slot events of a poll over the keys of the
    previous report gives exactly the keys of the current report: a key
    code is held after the replay if and only if one of the six slots of
    the current report holds it. *)
Theorem key_events_replay (previous current : apple_spi_kbd_report) (k : Z)
    (Hprev : report_wf previous) (Hcur : report_wf current) :
  In k (replay (key_slot_events previous current) (keycode previous)) <->
  In k (keycode current).
Proof.
  pose proof (release_in_key_slots previous current k Hprev Hcur) as R.
  pose proof (press_in_key_slots previous current k Hprev Hcur) as P.
  assert (Hev : forall e, In e (key_slot_events previous current) ->
                  ev_keycode e = k ->
                  (ev_pressed e = false /\ In k (keycode previous) /\ ~ In k (keycode current)) \/
                  (ev_pressed e = true /\ In k (keycode current) /\ ~ In k (keycode previous))).
  { intros [kc [ | ]] He Hk; simpl in Hk; subst kc.
    - right. apply P in He. simpl. tauto.
    - left. apply R in He. simpl. tauto. }
  destruct (touches_dec k (key_slot_events previous current)) as [[e [He Hk]] | Hno].
  - destruct (Hev e He Hk) as [[Hp [Ha Hb]] | [Hp [Hb Ha]]].
    + rewrite (replay_one_direction k false).
      * split; [ discriminate | intros H; contradiction ].
      * intros e' He' Hk'. destruct (Hev e' He' Hk') as [[Hp' _] | [_ [Hb' _]]];
          [ exact Hp' | contradiction ].
      * exists e. split; assumption.
    + rewrite (replay_one_direction k true).
      * split; [ intros _; exact Hb | reflexivity ].
      * intros e' He' Hk'. destruct (Hev e' He' Hk') as [[_ [Ha' _]] | [Hp' _]];
          [ contradiction | exact Hp' ].
      * exists e. split; assumption.
  - rewrite (replay_untouched k _ Hno).
    destruct (in_dec Z.eq_dec k (keycode previous)) as [Ha | Ha],
             (in_dec Z.eq_dec k (keycode current)) as [Hb | Hb].
    + tauto.
    + exfalso. apply (Hno (mk_event k false)); [ apply R; tauto | reflexivity ].
    + exfalso. apply (Hno (mk_event k true)); [ apply P; tauto | reflexivity ].
    + tauto.
Qed.

Lemma key_events_replay_witness :
  report_wf (rep 0 [4;5;0;0;0;0]) /\ report_wf (rep 0 [5;6;7;0;0;0]) /\
  (In 6 (replay (key_slot_events (rep 0 [4;5;0;0;0;0]) (rep 0 [5;6;7;0;0;0]))
                (keycode (rep 0 [4;5;0;0;0;0]))) <->
   In 6 (keycode (rep 0 [5;6;7;0;0;0]))).
Proof.
  split; [ reflexivity | split; [ reflexivity | ] ].
  exact (key_events_replay (rep 0 [4;5;0;0;0;0]) (rep 0 [5;6;7;0;0;0]) 6
                           eq_refl eq_refl).
Defined.

(** X10: replaying the modifier events of a poll over the tracked
    modifiers held in the previous modifier byte gives exactly the tracked
    modifiers held in the current one. *)
Theorem modifier_events_replay (previous current : apple_spi_kbd_report) (k : Z) :
  In k (replay (modifier_events previous current)
               (held_modifiers (modifiers previous))) <->
  In k (held_modifiers (modifiers current)).
Proof.
  rewrite modifier_events_unfold.
  cbv [modifier_check held_modifiers tracked_modifiers modifier_transition
       flat_map app fst snd old new].
  destruct (Z.testbit (modifiers previous) 0), (Z.testbit (modifiers previous) 4),
           (Z.testbit (modifiers previous) 1), (Z.testbit (modifiers previous) 5),
           (Z.testbit (modifiers current) 0), (Z.testbit (modifiers current) 4),
           (Z.testbit (modifiers current) 1), (Z.testbit (modifiers current) 5);
    vm_compute; tauto.
Qed.


(** X12: over any run of polls (failed bus claims, rejected and accepted
    packets in any order) started with equal stored reports, the two stored
    reports are equal after the run, the events delivered before the run are
    still there with the new ones appended, and the stored report is either
    untouched or the report of one of the packets polled. *)
Theorem stored_reports_equal_between_polls
    (inputs : list (Z * list Z)) (s : input_config)
    (Hs : old (dev_priv s) = new (dev_priv s)) :
  old (dev_priv (poll_all inputs s)) = new (dev_priv (poll_all inputs s)) /\
  (exists more, delivered (poll_all inputs s) = delivered s ++ more) /\
  (dev_priv (poll_all inputs s) = dev_priv s \/
   exists claim packet, In (claim, packet) inputs /\
     old (dev_priv (poll_all inputs s)) = report_of packet).
Proof.
  revert s Hs.
  induction inputs as [ | [claim packet] rest IH ]; intros s Hs; simpl.
  - split; [ exact Hs | split; [ exists []; symmetry; apply app_nil_r | left; reflexivity ] ].
  - destruct (check_cases claim packet s)
      as [[Hc E] | [[Hc [Hp E]] | [Hc [Hp E]]]]; rewrite E; simpl.
    + destruct (IH s Hs) as [I1 [I2 I3]].
      split; [ exact I1 | split; [ exact I2 | ] ].
      destruct I3 as [I3 | [c' [p' [Hin I3]]]]; [ left; exact I3 | ].
      right. exists c', p'. split; [ right; exact Hin | exact I3 ].
    + destruct (IH s Hs) as [I1 [I2 I3]].
      split; [ exact I1 | split; [ exact I2 | ] ].
      destruct I3 as [I3 | [c' [p' [Hin I3]]]]; [ left; exact I3 | ].
      right. exists c', p'. split; [ right; exact Hin | exact I3 ].
    + match goal with |- context [poll_all rest ?s1] =>
        destruct (IH s1 eq_refl) as [I1 [[more I2] I3]] end.
      split; [ exact I1 | split ].
      * exists (diff (old (dev_priv s)) (report_of packet) ++ more).
        rewrite I2. simpl. rewrite app_assoc. reflexivity.
      * right. destruct I3 as [I3 | [c' [p' [Hin I3]]]].
        -- exists claim, packet. split; [ left; reflexivity | ].
           rewrite I3. reflexivity.
        -- exists c', p'. split; [ right; exact Hin | exact I3 ].
Qed.

Lemma stored_reports_equal_between_polls_witness :
  old (dev_priv initial_config) = new (dev_priv initial_config) /\
  old (dev_priv (poll_all [(0, sample_packet); (-5, sample_packet);
                           (0, 0x21 :: tl sample_packet)] initial_config)) =
  new (dev_priv (poll_all [(0, sample_packet); (-5, sample_packet);
                           (0, 0x21 :: tl sample_packet)] initial_config)).
Proof.
  split; [ reflexivity | ].
  exact (proj1 (stored_reports_equal_between_polls
                  [(0, sample_packet); (-5, sample_packet);
                   (0, 0x21 :: tl sample_packet)] initial_config eq_refl)).
Defined.

(* ================================================================== *)
(** * Properties of the board support *)

Lemma arm64_headers_ok : headers_ok arm64_headers.
Proof.
  constructor.
  - intros x a n Hn Ea Hx. simpl.
    assert (Ha : 0 < a) by (subst a; apply Z.pow_pos_nonneg; lia).
    pose proof (Z.div_mod x a ltac:(lia)) as D.
    pose proof (Z.mod_pos_bound x a Ha) as B.
    assert (Hq : 0 <= x / a) by (apply Z.div_pos; lia).
    split; [ nia | split; [ nia | ] ].
    exists (x / a). reflexivity.
  - intros x a n Hn Ea Hx _. simpl.
    assert (Ha : 0 < a) by (subst a; apply Z.pow_pos_nonneg; lia).
    pose proof (Z.div_mod (x + (a - 1)) a ltac:(lia)) as D.
    pose proof (Z.mod_pos_bound (x + (a - 1)) a Ha) as B.
    split; [ nia | ].
    exists ((x + (a - 1)) / a). reflexivity.
  - vm_compute. discriminate.
  - vm_compute. discriminate.
Qed.

Lemma truthy_nonzero (z : Z) : z <> 0 -> truthy z = true.
Proof. intros H. unfold truthy. apply negb_true_iff, Z.eqb_neq. exact H. Qed.

Lemma build_t8103 (h : board_headers) (compatible : string -> bool)
    (dram : Z * Z) (fb : option (Z * Z)) :
  fb_attrs h <> 0 ->
  compatible "apple,t8103"%string = true ->
  build_mem_map h compatible dram fb =
  Some (firstn 6 (t8103_mem_map h) ++
        [ram_mapping h dram; fb_mapping h fb; mk_region 0 0 0 0]).
Proof.
  intros Hfb Hc. unfold build_mem_map, select_mem_map. rewrite Hc.
  unfold t8103_mem_map, find_terminator. cbn [size attrs].
  rewrite (truthy_nonzero _ Hfb).
  change (truthy (2 * SZ_1G)) with true. change (truthy SZ_1G) with true.
  change (truthy SZ_512M) with true. change (truthy (8 * SZ_1G)) with true.
  change (truthy 0) with false. cbn [orb].
  unfold ram_mapping, fb_mapping.
  destruct (page_align h (fst dram) (snd dram)) as [base size0].
  destruct fb as [[fbase fsize] | ]; [ | reflexivity ].
  cbn -[Z.eqb page_align]. destruct (fbase =? FDT_ADDR_T_NONE h); [ reflexivity | ].
  destruct (page_align h fbase fsize) as [b s]. reflexivity.
Qed.

Lemma build_t6000 (h : board_headers) (compatible : string -> bool)
    (dram : Z * Z) (fb : option (Z * Z)) :
  fb_attrs h <> 0 ->
  compatible "apple,t8103"%string = false ->
  compatible "apple,t6000"%string = true \/
  compatible "apple,t6001"%string = true ->
  build_mem_map h compatible dram fb =
  Some (firstn 9 (t6000_mem_map h) ++
        [ram_mapping h dram; fb_mapping h fb; mk_region 0 0 0 0]).
Proof.
  intros Hfb Hc Hc'. unfold build_mem_map.
  assert (S : select_mem_map h compatible = Some (t6000_mem_map h)).
  { unfold select_mem_map. rewrite Hc.
    destruct (compatible "apple,t6000"%string); [ reflexivity | ].
    destruct Hc' as [Hc' | Hc']; [ discriminate Hc' | rewrite Hc'; reflexivity ]. }
  rewrite S. unfold t6000_mem_map, find_terminator. cbn [size attrs].
  rewrite (truthy_nonzero _ Hfb).
  change (truthy SZ_1G) with true. change (truthy SZ_512M) with true.
  change (truthy (16 * SZ_1G)) with true.
  change (truthy 0) with false. cbn [orb].
  unfold ram_mapping, fb_mapping.
  destruct (page_align h (fst dram) (snd dram)) as [base size0].
  destruct fb as [[fbase fsize] | ]; [ | reflexivity ].
  cbn -[Z.eqb page_align]. destruct (fbase =? FDT_ADDR_T_NONE h); [ reflexivity | ].
  destruct (page_align h fbase fsize) as [b s]. reflexivity.
Qed.

Lemma page_align_covers (h : board_headers) (base size0 : Z) :
  headers_ok h ->
  0 <= base -> 0 <= size0 -> base + size0 + SZ_4K <= 2 ^ 64 ->
  let '(b, s) := page_align h base size0 in
  0 <= b <= base /\ base + size0 <= b + s /\
  b + s < base + size0 + SZ_4K /\
  (SZ_4K | b) /\ (SZ_4K | s).
Proof.
  intros Hok Hb Hs Hfit. unfold page_align.
  assert (P64 : 2 ^ 64 = 18446744073709551616) by reflexivity.
  unfold SZ_4K in *.
  destruct (align_down_spec h Hok base 4096 12 ltac:(lia) eq_refl ltac:(lia))
    as [[D0 D1] [D2 D3]].
  assert (E1 : u64 (base - ALIGN_DOWN h base 4096) = base - ALIGN_DOWN h base 4096)
    by (unfold u64; apply Z.mod_small; lia).
  rewrite E1.
  assert (E2 : u64 (size0 + (base - ALIGN_DOWN h base 4096)) =
               size0 + (base - ALIGN_DOWN h base 4096))
    by (unfold u64; apply Z.mod_small; lia).
  rewrite E2.
  destruct (align_spec h Hok (size0 + (base - ALIGN_DOWN h base 4096)) 4096 12
              ltac:(lia) eq_refl ltac:(lia) ltac:(lia)) as [[A1 A2] A3].
  repeat split; try assumption; lia.
Qed.

Lemma late_init_env (h : board_headers) (sp ram_base : Z)
    (env_set_hex : string -> Z -> Z) :
  let top := ALIGN_DOWN h (u64 (sp - CONFIG_STACK_SIZE h - SZ_8M - SZ_1M)) SZ_8M in
  let base := ALIGN h ram_base SZ_2M in
  let env := late_env (board_late_init h sp ram_base env_set_hex) in
  env_get "scriptaddr" env = Some (u64 (top + SZ_4M)) /\
  env_get "pxefile_addr_r" env = Some top /\
  env_get "fdt_addr_r" env = Some base /\
  env_get "kernel_addr_r" env = Some (u64 (base + SZ_2M)) /\
  env_get "ramdisk_addr_r" env = Some (u64 (base + SZ_128M)) /\
  env_get "loadaddr" env = Some (u64 (base + SZ_2G)).
Proof. repeat split. Qed.

(** X13: [build_mem_map] writes the RAM mapping into the RAM entry and the
    framebuffer mapping into the Framebuffer entry of the table of the SoC
    and leaves every other entry as it was: for apple,t8103 entries 6 and 7
    of its table, for apple,t6000 and apple,t6001 entries 9 and 10 of the
    other table; a machine compatible with none of the three panics. *)
Theorem build_mem_map_entries (h : board_headers) (compatible : string -> bool)
    (dram : Z * Z) (fb : option (Z * Z)) (Hok : headers_ok h) :
  (compatible "apple,t8103"%string = true ->
   build_mem_map h compatible dram fb =
   Some (firstn 6 (t8103_mem_map h) ++
         [ram_mapping h dram; fb_mapping h fb; mk_region 0 0 0 0])) /\
  (compatible "apple,t8103"%string = false ->
   compatible "apple,t6000"%string = true \/
   compatible "apple,t6001"%string = true ->
   build_mem_map h compatible dram fb =
   Some (firstn 9 (t6000_mem_map h) ++
         [ram_mapping h dram; fb_mapping h fb; mk_region 0 0 0 0])) /\
  (compatible "apple,t8103"%string = false ->
   compatible "apple,t6000"%string = false ->
   compatible "apple,t6001"%string = false ->
   build_mem_map h compatible dram fb = None).
Proof.
  split; [ | split ].
  - apply build_t8103. apply (fb_attrs_nonzero h Hok).
  - apply build_t6000. apply (fb_attrs_nonzero h Hok).
  - intros H1 H2 H3. unfold build_mem_map, select_mem_map.
    rewrite H1, H2, H3. reflexivity.
Qed.

Lemma build_mem_map_entries_witness :
  headers_ok arm64_headers /\
  build_mem_map arm64_headers (String.eqb "apple,t8103")
                (0x800000000, 0x200000000) (Some (0x9e0e5c000, 0x3e8000)) =
  Some (firstn 6 (t8103_mem_map arm64_headers) ++
        [ram_mapping arm64_headers (0x800000000, 0x200000000);
         fb_mapping arm64_headers (Some (0x9e0e5c000, 0x3e8000));
         mk_region 0 0 0 0]).
Proof.
  split; [ exact arm64_headers_ok | ].
  apply (proj1 (build_mem_map_entries arm64_headers (String.eqb "apple,t8103")
                  (0x800000000, 0x200000000) (Some (0x9e0e5c000, 0x3e8000))
                  arm64_headers_ok)).
  reflexivity.
Defined.

(** X14: the mapping [build_mem_map] computes for a region (the DRAM bank,
    or the framebuffer when its address is not FDT_ADDR_T_NONE) is identity
    mapped, starts and ends on a 4K boundary, covers the whole region and
    exceeds it by less than a page at either end, provided the region ends
    at least a page below 2^64. *)
Theorem mapping_covers_region (h : board_headers) (base size0 : Z)
    (Hok : headers_ok h)
    (Hbase : 0 <= base) (Hsize : 0 <= size0)
    (Hfit : base + size0 + SZ_4K <= 2 ^ 64) :
  let covers (r : mm_region) :=
    virt r = phys r /\
    0 <= virt r <= base /\ base < virt r + SZ_4K /\
    base + size0 <= virt r + size r /\
    virt r + size r < base + size0 + SZ_4K /\
    (SZ_4K | virt r) /\ (SZ_4K | size r) in
  covers (ram_mapping h (base, size0)) /\
  (base <> FDT_ADDR_T_NONE h -> covers (fb_mapping h (Some (base, size0)))).
Proof.
  pose proof (page_align_covers h base size0 Hok Hbase Hsize Hfit) as P.
  assert (P64 : 2 ^ 64 = 18446744073709551616) by reflexivity.
  destruct (align_down_spec h Hok base SZ_4K 12 ltac:(lia) eq_refl
              ltac:(unfold SZ_4K in Hfit; lia)) as [_ [D2 _]].
  assert (Hb : fst (page_align h base size0) = ALIGN_DOWN h base SZ_4K)
    by reflexivity.
  cbv zeta. unfold ram_mapping, fb_mapping. cbn [fst snd].
  destruct (page_align h base size0) as [b s]. simpl in Hb. subst b.
  split.
  - cbn [virt phys size attrs]. repeat split; try apply P; lia.
  - intros Hne. apply Z.eqb_neq in Hne. rewrite Hne.
    cbn [virt phys size attrs]. repeat split; try apply P; lia.
Qed.

Lemma mapping_covers_region_witness :
  headers_ok arm64_headers /\ 0 <= 0x9e0e5c123 /\ 0 <= 0x3e8000 /\
  0x9e0e5c123 + 0x3e8000 + SZ_4K <= 2 ^ 64 /\
  0x9e0e5c123 + 0x3e8000 <=
    virt (ram_mapping arm64_headers (0x9e0e5c123, 0x3e8000)) +
    size (ram_mapping arm64_headers (0x9e0e5c123, 0x3e8000)).
Proof.
  assert (H1 : 0 <= 0x9e0e5c123) by lia.
  assert (H2 : 0 <= 0x3e8000) by lia.
  assert (H3 : 0x9e0e5c123 + 0x3e8000 + SZ_4K <= 2 ^ 64) by (vm_compute; discriminate).
  split; [ exact arm64_headers_ok | split; [ exact H1 | split; [ exact H2 | split; [ exact H3 | ] ] ] ].
  apply (proj1 (mapping_covers_region arm64_headers 0x9e0e5c123 0x3e8000
                  arm64_headers_ok H1 H2 H3)).
Defined.

(** X15: [board_late_init] puts pxefile_addr_r at an 8M-aligned address and
    scriptaddr 4M above it, so that the two 4M areas end at least 1M below
    the bottom of the stack (stack pointer minus CONFIG_STACK_SIZE), and no
    more than 8M lower than that requires. *)
Theorem late_init_reserves_below_stack (h : board_headers) (sp ram_base : Z)
    (env_set_hex : string -> Z -> Z)
    (Hok : headers_ok h)
    (Hsp : CONFIG_STACK_SIZE h + SZ_8M + SZ_1M <= sp < 2 ^ 64) :
  exists top,
    env_get "pxefile_addr_r"
      (late_env (board_late_init h sp ram_base env_set_hex)) = Some top /\
    env_get "scriptaddr"
      (late_env (board_late_init h sp ram_base env_set_hex)) = Some (top + SZ_4M) /\
    0 <= top /\ (SZ_8M | top) /\
    top + SZ_4M + SZ_4M <= sp - CONFIG_STACK_SIZE h - SZ_1M /\
    sp - CONFIG_STACK_SIZE h - SZ_1M - SZ_8M < top + SZ_4M + SZ_4M.
Proof.
  destruct (late_init_env h sp ram_base env_set_hex) as [E1 [E2 _]].
  pose proof (stack_size_nonneg h Hok) as Hst.
  unfold SZ_8M, SZ_1M, SZ_4M in *.
  assert (U : u64 (sp - CONFIG_STACK_SIZE h - 8388608 - 1048576) =
              sp - CONFIG_STACK_SIZE h - 8388608 - 1048576)
    by (unfold u64; apply Z.mod_small; lia).
  rewrite U in E1, E2.
  destruct (align_down_spec h Hok
              (sp - CONFIG_STACK_SIZE h - 8388608 - 1048576) 8388608 23
              ltac:(lia) eq_refl ltac:(lia)) as [[D0 D1] [D2 D3]].
  exists (ALIGN_DOWN h (sp - CONFIG_STACK_SIZE h - 8388608 - 1048576) 8388608).
  split; [ exact E2 | split ].
  - rewrite E1. f_equal. unfold u64. apply Z.mod_small. lia.
  - repeat split; try assumption; lia.
Qed.

Lemma late_init_reserves_below_stack_witness :
  headers_ok arm64_headers /\
  CONFIG_STACK_SIZE arm64_headers + SZ_8M + SZ_1M <= 0xbdf000000 < 2 ^ 64 /\
  exists top,
    env_get "pxefile_addr_r"
      (late_env (board_late_init arm64_headers 0xbdf000000 0x800000000
                                 (fun _ _ => 0))) = Some top /\
    env_get "scriptaddr"
      (late_env (board_late_init arm64_headers 0xbdf000000 0x800000000
                                 (fun _ _ => 0))) = Some (top + SZ_4M) /\
    0 <= top /\ (SZ_8M | top) /\
    top + SZ_4M + SZ_4M <= 0xbdf000000 - CONFIG_STACK_SIZE arm64_headers - SZ_1M /\
    0xbdf000000 - CONFIG_STACK_SIZE arm64_headers - SZ_1M - SZ_8M <
      top + SZ_4M + SZ_4M.
Proof.
  assert (H : CONFIG_STACK_SIZE arm64_headers + SZ_8M + SZ_1M <= 0xbdf000000 < 2 ^ 64)
    by (split; vm_compute; [ discriminate | reflexivity ]).
  split; [ exact arm64_headers_ok | split; [ exact H | ] ].
  exact (late_init_reserves_below_stack arm64_headers 0xbdf000000 0x800000000
           (fun _ _ => 0) arm64_headers_ok H).
Defined.

(** X16: [board_late_init] puts fdt_addr_r at the first 2M boundary at or
    above the RAM base, kernel_addr_r 2M above it (the room for the device
    tree), ramdisk_addr_r 128M and loadaddr 2G above it. *)
Theorem late_init_load_addresses (h : board_headers) (sp ram_base : Z)
    (env_set_hex : string -> Z -> Z)
    (Hok : headers_ok h)
    (Hram : 0 <= ram_base) (Hfit : ram_base + SZ_2M + SZ_2G <= 2 ^ 64) :
  exists base,
    env_get "fdt_addr_r"
      (late_env (board_late_init h sp ram_base env_set_hex)) = Some base /\
    env_get "kernel_addr_r"
      (late_env (board_late_init h sp ram_base env_set_hex)) = Some (base + SZ_2M) /\
    env_get "ramdisk_addr_r"
      (late_env (board_late_init h sp ram_base env_set_hex)) = Some (base + SZ_128M) /\
    env_get "loadaddr"
      (late_env (board_late_init h sp ram_base env_set_hex)) = Some (base + SZ_2G) /\
    ram_base <= base < ram_base + SZ_2M /\ (SZ_2M | base).
Proof.
  destruct (late_init_env h sp ram_base env_set_hex) as [_ [_ [E3 [E4 [E5 E6]]]]].
  unfold SZ_2M, SZ_128M, SZ_2G in *.
  destruct (align_spec h Hok ram_base 2097152 21 ltac:(lia) eq_refl Hram
              ltac:(lia)) as [[A1 A2] A3].
  exists (ALIGN h ram_base 2097152).
  split; [ exact E3 | ].
  split; [ rewrite E4; f_equal; unfold u64; apply Z.mod_small; lia | ].
  split; [ rewrite E5; f_equal; unfold u64; apply Z.mod_small; lia | ].
  split; [ rewrite E6; f_equal; unfold u64; apply Z.mod_small; lia | ].
  split; [ lia | exact A3 ].
Qed.

Lemma late_init_load_addresses_witness :
  headers_ok arm64_headers /\ 0 <= 0x800100000 /\
  0x800100000 + SZ_2M + SZ_2G <= 2 ^ 64 /\
  exists base,
    env_get "fdt_addr_r"
      (late_env (board_late_init arm64_headers 0xbdf000000 0x800100000
                                 (fun _ _ => 0))) = Some base /\
    env_get "kernel_addr_r"
      (late_env (board_late_init arm64_headers 0xbdf000000 0x800100000
                                 (fun _ _ => 0))) = Some (base + SZ_2M) /\
    env_get "ramdisk_addr_r"
      (late_env (board_late_init arm64_headers 0xbdf000000 0x800100000
                                 (fun _ _ => 0))) = Some (base + SZ_128M) /\
    env_get "loadaddr"
      (late_env (board_late_init arm64_headers 0xbdf000000 0x800100000
                                 (fun _ _ => 0))) = Some (base + SZ_2G) /\
    0x800100000 <= base < 0x800100000 + SZ_2M /\ (SZ_2M | base).
Proof.
  assert (H1 : 0 <= 0x800100000) by lia.
  assert (H2 : 0x800100000 + SZ_2M + SZ_2G <= 2 ^ 64) by (vm_compute; discriminate).
  split; [ exact arm64_headers_ok | split; [ exact H1 | split; [ exact H2 | ] ] ].
  exact (late_init_load_addresses arm64_headers 0xbdf000000 0x800100000
           (fun _ _ => 0) arm64_headers_ok H1 H2).
Defined.

(** X17: [board_late_init] returns 0 whatever [env_set_hex] answers, and
    logs its warning exactly when one of its six calls answered a status
    that is not zero as a [u32]. *)
Theorem late_init_status (h : board_headers) (sp ram_base : Z)
    (env_set_hex : string -> Z -> Z) :
  late_ret (board_late_init h sp ram_base env_set_hex) = 0 /\
  (late_warned (board_late_init h sp ram_base env_set_hex) = false <->
   forall name value,
     In (name, value) (late_env (board_late_init h sp ram_base env_set_hex)) ->
     u32 (env_set_hex name value) = 0).
Proof.
  split; [ reflexivity | ].
  unfold board_late_init. cbn [late_warned late_env fst snd].
  unfold truthy. rewrite negb_false_iff, Z.eqb_eq.
  rewrite !Z.lor_eq_0_iff. split.
  - intros [[[[[[_ H1] H2] H3] H4] H5] H6] name value Hin.
    repeat (destruct Hin as [Hin | Hin];
            [ injection Hin as <- <-; assumption | ]).
    destruct Hin.
  - intros H. repeat split; try reflexivity; apply H; simpl; tauto.
Qed.

(* ================================================================== *)
(** * A poll as a whole *)

(** X18: a poll that returns 1 delivers, after the events already
    delivered, exactly the events of the differ for the stored previous
    report and the report read out of the packet; the stored current
    report from before the poll plays no part. *)
Theorem poll_delivers_diff (claim : Z) (packet : list Z) (s : input_config)
    (Hacc : fst (apple_spi_kbd_check claim packet s) = 1) :
  delivered (snd (apple_spi_kbd_check claim packet s)) =
  delivered s ++ diff (old (dev_priv s)) (report_of packet).
Proof.
  destruct (check_cases claim packet s)
    as [[Hc E] | [[Hc [Hp E]] | [Hc [Hp E]]]]; rewrite E in *; simpl in *.
  - lia.
  - discriminate Hacc.
  - reflexivity.
Qed.

Lemma poll_delivers_diff_witness :
  fst (apple_spi_kbd_check 0 sample_packet initial_config) = 1 /\
  delivered (snd (apple_spi_kbd_check 0 sample_packet initial_config)) =
  delivered initial_config ++
  diff (old (dev_priv initial_config)) (report_of sample_packet).
Proof.
  split; [ reflexivity | ].
  exact (poll_delivers_diff 0 sample_packet initial_config eq_refl).
Defined.

(* ================================================================== *)
(** * ASCII text through the decoder *)

(** X19: a string of bytes below 127 passes through the decoder unchanged,
    byte for byte, and leaves the escape state exactly as it was, also in
    the middle of a multi-byte sequence. *)
Theorem ascii_passes_through (bytes : list Z) (esc : Z)
    (Hascii : Forall (fun c => c < 127) bytes) :
  feed bytes esc = Some (bytes, esc).
Proof.
  induction Hascii as [ | c rest Hc _ IH ]; [ reflexivity | ].
  assert (E : convert_utf8_to_cp437 c esc = Some (c, esc)).
  { unfold convert_utf8_to_cp437. apply Z.ltb_lt in Hc. rewrite Hc. reflexivity. }
  rewrite (feed_cons c rest esc c esc E), IH. reflexivity.
Qed.

Lemma ascii_passes_through_witness :
  Forall (fun c => c < 127) [0x6f; 0x6b] /\
  feed [0x6f; 0x6b] (lead3_state 0xe2) = Some ([0x6f; 0x6b], lead3_state 0xe2).
Proof.
  assert (H : Forall (fun c => c < 127) [0x6f; 0x6b])
    by (repeat constructor).
  split; [ exact H | ].
  exact (ascii_passes_through [0x6f; 0x6b] (lead3_state 0xe2) H).
Defined.
